(** * dogeplot history cleaner: [clean_repo.py] and [clean_git_history.py]

    A shallow embedding of the two scripts that scan a Git history for
    credentials and rewrite it, together with the properties of the
    specification that can be settled on the code.

    Layout:
    - [Re]: the fragment of Python's [re] engine the two pattern lists use
      (a backtracking matcher, [re.sub], [re.finditer]);
    - [CleanRepo]: [clean_repo.py] (byte patterns, [clean_message],
      [clean_blob], and the two callbacks on an explicit store);
    - [Text]: the string methods the scripts call;
    - [Proc]: the process monad (sub-processes, console, exceptions);
    - [GitHistoryCleaner]: [clean_git_history.py];
    - [Engine]: the path filter of the external rewrite engine;
    - [Spec], [Scenarios], [Shapes], [Conduct] and [Cases]: the vocabulary
      of the properties and the concrete runs they are tried on;
    - the facts about the matcher, the substitution pass, the scan and the
      runs;
    - the properties of the specification, C1 to C10;
    - further properties of the two scripts, X1 to X17.

    Python [bytes] are lists of 8-bit characters ([list ascii]). Python [str]
    is modelled over the code points U+0000 to U+00FF, one [ascii] each, with
    the [\w], [\s], [lower], [strip] and [splitlines] that Python gives
    them. *)

From Stdlib Require Import List Ascii String Arith ZArith Lia Bool.
From Stdlib Require DecimalString.
From stdpp Require Import base decidable list strings gmap.

Import ListNotations.
Local Open Scope string_scope.
Local Open Scope list_scope.
Local Open Scope nat_scope.

(** Byte strings are written as string literals. *)
Abbreviation bytes := (list ascii).
Definition b (s : string) : bytes := list_ascii_of_string s.

(* ================================================================== *)
(** * The regular-expression engine *)
(* ================================================================== *)

Module Re.

(** ** Character classes *)

Definition cls := ascii -> bool.

Definition code (c : ascii) : nat := nat_of_ascii c.

Definition lit (c : ascii) : cls := fun x => Ascii.eqb x c.
Definition range (lo hi : ascii) : cls :=
  fun x => (code lo <=? code x) && (code x <=? code hi).
Definition either (p q : cls) : cls := fun x => p x || q x.
Definition nope (p : cls) : cls := fun x => negb (p x).
Definition one_of (s : string) : cls :=
  fun x => existsb (Ascii.eqb x) (list_ascii_of_string s).

Definition lower : cls := range "a" "z".
Definition upper : cls := range "A" "Z".
Definition digit : cls := range "0" "9".
(** [\w] in a bytes pattern: [[a-zA-Z0-9_]]. *)
Definition word : cls := either lower (either upper (either digit (lit "_"))).
(** [\s] in a bytes pattern: space, tab, newline, carriage return, form
    feed, vertical tab. *)
Definition space : cls := fun x => (code x =? 32) || ((9 <=? code x) && (code x <=? 13)).
(** [\w] in a str pattern, on U+0000..U+00FF: the characters for which
    [str.isalnum] holds, and the underscore. *)
Definition uword : cls :=
  fun x => word x
           || existsb (Nat.eqb (code x)) [170; 178; 179; 181; 185; 186; 188; 189; 190]
           || ((192 <=? code x) && negb (code x =? 215) && negb (code x =? 247)).
(** [\s] in a str pattern, on U+0000..U+00FF: [str.isspace]. *)
Definition uspace : cls :=
  fun x => space x || ((28 <=? code x) && (code x <=? 31))
           || (code x =? 133) || (code x =? 160).
Definition newline : ascii := ascii_of_nat 10.
(** [.] without DOTALL: anything but a newline. *)
Definition dot : cls := nope (lit newline).

(** ASCII case folding, as [(?i)] does on bytes. *)
Definition to_lower (c : ascii) : ascii :=
  if upper c then ascii_of_nat (code c + 32) else c.
Definition to_upper (c : ascii) : ascii :=
  if lower c then ascii_of_nat (code c - 32) else c.
(** A class read under [(?i)]: a character belongs to it when either of its
    two cases does. *)
Definition icase (p : cls) : cls := fun x => p x || p (to_lower x) || p (to_upper x).

(** ** Syntax

    Every quantifier of the two pattern lists applies to a single character
    or class, except one optional group; [Rep] is that greedy quantifier
    ([?] is [Rep p 0 (Some 1)], [*] is [Rep p 0 None], [+] is [Rep p 1 None],
    [{n,}] is [Rep p n None], [{n}] is [Rep p n (Some n)]), and the optional
    group [(?:r)?] is [Alt r Eps]. [Bol] and [Eol] are [^] and [$] under
    [(?m)]. *)

Inductive regex : Type :=
| Eps
| Chr (p : cls)
| Rep (p : cls) (lo : nat) (hi : option nat)
| Seq (r1 r2 : regex)
| Alt (r1 r2 : regex)
| Bol
| Eol.

Fixpoint seqs (rs : list regex) : regex :=
  match rs with
  | [] => Eps
  | [r] => r
  | r :: rs' => Seq r (seqs rs')
  end.

(** A literal string, case-sensitive or under [(?i)]. *)
Definition lits (ci : bool) (s : string) : regex :=
  seqs (map (fun c => Chr (if ci then icase (lit c) else lit c))
            (list_ascii_of_string s)).

Definition opt (p : cls) : regex := Rep p 0 (Some 1).
Definition star (p : cls) : regex := Rep p 0 None.
Definition plus (p : cls) : regex := Rep p 1 None.
Definition at_least (n : nat) (p : cls) : regex := Rep p n None.
Definition exactly (n : nat) (p : cls) : regex := Rep p n (Some n).

(** ** The backtracking matcher

    The matcher works at a cursor: the character before it ([None] at the
    start of the subject) and the rest of the subject. [ends r prev s] lists
    the lengths of all the matches of [r] at the cursor in the order in which
    the backtracking engine tries them; the match the engine reports is the
    first. *)

Fixpoint span (p : cls) (limit : option nat) (s : bytes) : nat :=
  match s with
  | c :: s' =>
      if p c then
        match limit with
        | Some 0 => 0
        | Some (S k) => S (span p (Some k) s')
        | None => S (span p None s')
        end
      else 0
  | [] => 0
  end.

(** [countdown n lo] is [n; n-1; ...; lo] (empty when [n < lo]): a greedy
    quantifier gives back one character at a time. *)
Fixpoint countdown (n lo : nat) : list nat :=
  if n <? lo then []
  else match n with
       | 0 => [0]
       | S k => n :: countdown k lo
       end.

Fixpoint advance (n : nat) (prev : option ascii) (s : bytes) : option ascii * bytes :=
  match n, s with
  | S k, c :: s' => advance k (Some c) s'
  | _, _ => (prev, s)
  end.

Definition at_bol (prev : option ascii) : bool :=
  match prev with
  | None => true
  | Some c => Ascii.eqb c newline
  end.

Definition at_eol (s : bytes) : bool :=
  match s with
  | [] => true
  | c :: _ => Ascii.eqb c newline
  end.

Fixpoint ends (r : regex) (prev : option ascii) (s : bytes) : list nat :=
  match r with
  | Eps => [0]
  | Chr p =>
      match s with
      | c :: _ => if p c then [1] else []
      | [] => []
      end
  | Rep p lo hi => countdown (span p hi s) lo
  | Seq r1 r2 =>
      flat_map (fun n1 =>
                  let '(prev', s') := advance n1 prev s in
                  map (Nat.add n1) (ends r2 prev' s'))
               (ends r1 prev s)
  | Alt r1 r2 => ends r1 prev s ++ ends r2 prev s
  | Bol => if at_bol prev then [0] else []
  | Eol => if at_eol s then [0] else []
  end.

(** The match at the cursor. After an empty match the engine is asked for
    a match that advances ([must_advance]). *)
Definition match_here (r : regex) (prev : option ascii) (s : bytes)
    (must_advance : bool) : option nat :=
  head (if must_advance
        then List.filter (fun n => negb (n =? 0)) (ends r prev s)
        else ends r prev s).

(** ** [re.sub(pattern, repl, subject)] with a literal replacement

    The subject is scanned from left to right. [skip] counts the characters
    of the current match still to be dropped. At a cursor outside a match:
    no match, the character is copied; a match of [S n] characters, the
    replacement is emitted and the match dropped; an empty match, the
    replacement is emitted and the engine is asked again for a match that
    advances. *)

Fixpoint sub_go (r : regex) (repl : bytes) (prev : option ascii) (s : bytes)
    (skip : nat) : bytes :=
  match skip, s with
  | S k, c :: s' => sub_go r repl (Some c) s' k
  | S _, [] => []
  | 0, _ =>
      let copy :=
        match s with
        | c :: s' => c :: sub_go r repl (Some c) s' 0
        | [] => []
        end in
      let drop n :=
        match s with
        | c :: s' => sub_go r repl (Some c) s' n
        | [] => []
        end in
      match match_here r prev s false with
      | None => copy
      | Some (S n) => repl ++ drop n
      | Some 0 =>
          repl ++ match match_here r prev s true with
                  | Some (S n) => repl ++ drop n
                  | _ => copy
                  end
      end
  end.

Definition sub (r : regex) (repl : bytes) (s : bytes) : bytes :=
  sub_go r repl None s 0.

(** ** [re.finditer(pattern, subject)]: the spans [(start, end)] of the
    successive matches, found by the same scan. *)

Fixpoint finditer_go (r : regex) (prev : option ascii) (s : bytes)
    (pos skip : nat) : list (nat * nat) :=
  match skip, s with
  | S k, c :: s' => finditer_go r (Some c) s' (S pos) k
  | S _, [] => []
  | 0, _ =>
      let next n :=
        match s with
        | c :: s' => finditer_go r (Some c) s' (S pos) n
        | [] => []
        end in
      match match_here r prev s false with
      | None => next 0
      | Some (S n) => (pos, pos + S n) :: next n
      | Some 0 =>
          (pos, pos) :: match match_here r prev s true with
                        | Some (S n) => (pos, pos + S n) :: next n
                        | _ => next 0
                        end
      end
  end.

Definition finditer (r : regex) (s : bytes) : list (nat * nat) :=
  finditer_go r None s 0 0.

End Re.

(* ================================================================== *)
(** * [clean_repo.py] *)
(* ================================================================== *)

Module CleanRepo.
Import Re.

(** [[a-zA-Z0-9-_]] and [[a-zA-Z0-9_\-]]: letters, digits, [-] and [_]. *)
Definition alnum_dash : cls := either lower (either upper (either digit (one_of "-_"))).
(** [[\w\-\.]] *)
Definition word_dash_dot : cls := either word (one_of "-.").
(** [[a-f0-9]] *)
Definition hex : cls := either (range "a" "f") digit.

(** [rb'eyJ[a-zA-Z0-9-_]+\.[a-zA-Z0-9-_]+\.[a-zA-Z0-9-_]+'] *)
Definition p_jwt : regex :=
  seqs [lits false "eyJ"; plus alnum_dash; Chr (lit "."); plus alnum_dash;
        Chr (lit "."); plus alnum_dash].
(** [rb'[a-f0-9]{32,}'] *)
Definition p_hex : regex := at_least 32 hex.
(** [rb'(?i)api[_-]?key[_-]?[\w\-\.]+'] *)
Definition p_api_key : regex :=
  seqs [lits true "api"; opt (one_of "_-"); lits true "key"; opt (one_of "_-");
        plus word_dash_dot].
(** [rb'(?i)secret[_-]?key[_-]?[\w\-\.]+'] *)
Definition p_secret_key : regex :=
  seqs [lits true "secret"; opt (one_of "_-"); lits true "key"; opt (one_of "_-");
        plus word_dash_dot].
(** [rb'(?i)password[_-]?[\w\-\.]+'] *)
Definition p_password : regex :=
  seqs [lits true "password"; opt (one_of "_-"); plus word_dash_dot].
(** [rb'(?i)token[_-]?[\w\-\.]+'] *)
Definition p_token : regex :=
  seqs [lits true "token"; opt (one_of "_-"); plus word_dash_dot].
(** [rb'sk-[0-9a-zA-Z]{48}'] *)
Definition p_sk : regex :=
  seqs [lits false "sk-"; exactly 48 (either digit (either lower upper))].
(** [rb'xox[p|b|o|a]-[0-9]{12}-[0-9]{12}-[0-9]{12}-[a-z0-9]{32}'] *)
Definition p_slack : regex :=
  seqs [lits false "xox"; Chr (one_of "p|boa"); Chr (lit "-");
        exactly 12 digit; Chr (lit "-"); exactly 12 digit; Chr (lit "-");
        exactly 12 digit; Chr (lit "-"); exactly 32 (either lower digit)].
(** [rb'https?://[^/\s]+/x-[a-zA-Z0-9_\-]{24}'] *)
Definition p_url_token : regex :=
  seqs [lits false "http"; opt (lit "s"); lits false "://";
        plus (nope (either (lit "/") space)); lits false "/x-";
        exactly 24 alnum_dash].
(** [rb'[a-zA-Z0-9_-]*:[a-zA-Z0-9_\-]+@[a-zA-Z0-9_\-]+\.[a-zA-Z0-9_\-]+'] *)
Definition p_url_cred : regex :=
  seqs [star alnum_dash; Chr (lit ":"); plus alnum_dash; Chr (lit "@");
        plus alnum_dash; Chr (lit "."); plus alnum_dash].

(** The module-level list [patterns]. *)
Definition patterns : list regex :=
  [p_jwt; p_hex; p_api_key; p_secret_key; p_password; p_token; p_sk;
   p_slack; p_url_token; p_url_cred].

(** [b'***REMOVED***'] *)
Definition marker : bytes := b "***REMOVED***".

(** The loop [for pattern in patterns: x = re.sub(pattern, marker, x)]. *)
Definition redact_with (ps : list regex) (x : bytes) : bytes :=
  fold_left (fun acc p => sub p marker acc) ps x.

(** [clean_message(message)] *)
Definition clean_message (message : bytes) : bytes :=
  redact_with patterns message.

(** A blob of the rewrite engine: the callback reads and assigns [data];
    [blob_id] stands for whatever else the engine keeps in the object. *)
Record blob : Type := Blob { blob_id : nat; data : bytes }.

(** [clean_blob(blob)] assigns [blob.data] in place, once per pattern;
    the updated object is returned. *)
Definition clean_blob (bl : blob) : blob :=
  fold_left (fun acc p => Blob (blob_id acc) (sub p marker (data acc))) patterns bl.

(** ** The callbacks on the interpreter state

    What a callback can reach besides its argument: the module-level list
    [patterns], and the blob objects of the engine, which [clean_blob]
    receives by reference and assigns in place. *)
Record store : Type := Store {
  g_patterns : list regex;
  objects : gmap nat blob
}.

(** The store once the module is loaded. *)
Definition loaded (objs : gmap nat blob) : store := Store patterns objs.

(** [clean_message(message)]: the loop reads the global [patterns] and
    rebinds its local [message]; the result is returned. *)
Definition run_clean_message (message : bytes) (st : store) : bytes * store :=
  (fold_left (fun message p => sub p marker message) (g_patterns st) message, st).

(** [blob.data = re.sub(pattern, marker, blob.data)] on the object [ref]. *)
Definition assign_data (ref : nat) (p : regex) (st : store) : store :=
  Store (g_patterns st)
        (alter (fun bl => Blob (blob_id bl) (sub p marker (data bl))) ref (objects st)).

(** [clean_blob(blob)]: nothing is returned. *)
Definition run_clean_blob (ref : nat) (st : store) : store :=
  fold_left (fun st p => assign_data ref p st) (g_patterns st) st.

(** The engine calls the two callbacks in any order. *)
Inductive call : Type :=
| CallMessage (message : bytes)
| CallBlob (ref : nat).

Definition invoke (c : call) (st : store) : store :=
  match c with
  | CallMessage message => snd (run_clean_message message st)
  | CallBlob ref => run_clean_blob ref st
  end.

Definition run_calls (cs : list call) (st : store) : store :=
  fold_left (fun st c => invoke c st) cs st.

End CleanRepo.

(* ================================================================== *)
(** * Text helpers of the Python runtime *)
(* ================================================================== *)

Module Text.
Import Re.

Definition chr (n : nat) : string := String (ascii_of_nat n) EmptyString.
(** The escapes of the Python literals: newline, carriage return, and the
    double quote. *)
Definition nl : string := chr 10.
Definition cr : string := chr 13.
Definition dq : string := chr 34.

(** [str(n)] of a natural number. *)
Definition str_of_nat (n : nat) : string :=
  DecimalString.NilZero.string_of_uint (Nat.to_uint n).

(** [sep.join(parts)] *)
Fixpoint join (sep : string) (parts : list string) : string :=
  match parts with
  | [] => ""
  | [x] => x
  | x :: rest => x +:+ sep +:+ join sep rest
  end.

(** [str.lower] on U+0000..U+00FF. *)
Definition lower_char (c : ascii) : ascii :=
  if upper c || ((192 <=? code c) && (code c <=? 222) && negb (code c =? 215))
  then ascii_of_nat (code c + 32) else c.
Definition lower (s : string) : string :=
  string_of_list_ascii (map lower_char (list_ascii_of_string s)).

(** [str.strip()] removes the characters of [str.isspace] at both ends. *)
Fixpoint lstrip (s : bytes) : bytes :=
  match s with
  | c :: s' => if uspace c then lstrip s' else s
  | [] => []
  end.
Definition strip (s : string) : string :=
  string_of_list_ascii (rev (lstrip (rev (lstrip (list_ascii_of_string s))))).

(** [str.splitlines()]: the line boundaries on U+0000..U+00FF are
    [\n \r \r\n \v \f \x1c \x1d \x1e \x85]; no empty last line. *)
Definition line_break (c : ascii) : bool :=
  ((10 <=? code c) && (code c <=? 13)) || ((28 <=? code c) && (code c <=? 30))
  || (code c =? 133).

Fixpoint splitlines_go (s : bytes) (cur : bytes) : list string :=
  match s with
  | [] => match cur with [] => [] | _ => [string_of_list_ascii (rev cur)] end
  | c :: s' =>
      if line_break c then
        string_of_list_ascii (rev cur) ::
          match s' with
          | d :: s'' =>
              if (code c =? 13) && (code d =? 10)
              then splitlines_go s'' []
              else splitlines_go s' []
          | [] => []
          end
      else splitlines_go s' (c :: cur)
  end.
Definition splitlines (s : string) : list string :=
  splitlines_go (list_ascii_of_string s) [].

End Text.

(* ================================================================== *)
(** * Processes, console and exceptions *)
(* ================================================================== *)

Module Proc.

(** The exceptions the scripts can meet. *)
Inductive exn : Type :=
| CalledProcessError   (* [check_output]: non-zero exit status *)
| UnicodeDecodeError   (* [check_output]: output that is not text *)
| OSError              (* the program cannot be started, [makedirs] fails *)
| EOFError.            (* [input()]: no more input *)

(** What a sub-process does: it cannot be started, or it exits with a
    status, having written text or bytes that do not decode. *)
Inductive output : Type :=
| Decoded (text : string)
| Undecodable.

Inductive outcome : Type :=
| Exited (status : Z) (out : output)
| SpawnFailed.

(** The environment of a run: the behaviour of each command line (with
    the bytes fed to its standard input), of directory creation, and the
    lines typed by the user. *)
Record world : Type := World {
  spawn : list string -> option string -> outcome;
  makedirs_ok : string -> bool;
  typed : list string
}.

(** What a run does, in order. *)
Inductive event : Type :=
| Write (text : string)                             (* standard output *)
| Input (prompt : string)                           (* [input(prompt)] *)
| CheckOutput (argv : list string)                  (* [subprocess.check_output] *)
| Run (argv : list string) (stdin : option string)  (* [subprocess.run] *)
| MakeDirs (path : string).                         (* [os.makedirs] *)

Record state : Type := State {
  trace : list event;
  unread : list string
}.

Inductive result (A : Type) : Type :=
| Ok (a : A)
| Raise (e : exn).
Arguments Ok {A} a.
Arguments Raise {A} e.

Definition M (A : Type) : Type := world -> state -> result A * state.

Definition ret {A} (a : A) : M A := fun _ st => (Ok a, st).

Definition bind {A B} (m : M A) (k : A -> M B) : M B :=
  fun w st =>
    match m w st with
    | (Ok a, st') => k a w st'
    | (Raise e, st') => (Raise e, st')
    end.

Definition raise {A} (e : exn) : M A := fun _ st => (Raise e, st).

(** [try: m except e: handler] *)
Definition try_except {A} (m : M A) (caught : exn -> bool) (handler : M A) : M A :=
  fun w st =>
    match m w st with
    | (Ok a, st') => (Ok a, st')
    | (Raise e, st') => if caught e then handler w st' else (Raise e, st')
    end.

Definition emit (e : event) : M unit :=
  fun _ st => (Ok tt, State (trace st ++ [e]) (unread st)).

(** The monad is used with stdpp's notations [x ← m; k] and [m;; k]. *)
#[global] Instance M_ret : MRet M := @ret.
#[global] Instance M_bind : MBind M := fun A B k m => bind m k.

(** [print(s)] and [print(s, end='')] *)
Definition print (s : string) : M unit := emit (Write (s +:+ Text.nl)).
Definition print_no_end (s : string) : M unit := emit (Write s).

(** Reading the environment. *)
Definition read_line : M string :=
  fun _ st =>
    match unread st with
    | line :: rest => (Ok line, State (trace st) rest)
    | [] => (Raise EOFError, st)
    end.
Definition spawned (argv : list string) (stdin : option string) : M outcome :=
  fun w st => (Ok (spawn w argv stdin), st).
Definition made (path : string) : M bool :=
  fun w st => (Ok (makedirs_ok w path), st).

(** [input(prompt)] *)
Definition input (prompt : string) : M string :=
  emit (Input prompt);; read_line.

(** [subprocess.check_output(argv, universal_newlines=True)]: the output is
    decoded, then the exit status is checked. *)
Definition check_output (argv : list string) : M string :=
  emit (CheckOutput argv);;
  o ← spawned argv None;
  match o with
  | SpawnFailed => raise OSError
  | Exited _ Undecodable => raise UnicodeDecodeError
  | Exited status (Decoded text) =>
      if (status =? 0)%Z then ret text else raise CalledProcessError
  end.

(** [subprocess.run(argv, input=stdin)]: without [check=True] the exit
    status is handed back, never raised. *)
Definition run (argv : list string) (stdin : option string) : M Z :=
  emit (Run argv stdin);;
  o ← spawned argv stdin;
  match o with
  | SpawnFailed => raise OSError
  | Exited status _ => ret status
  end.

(** [os.makedirs(path, exist_ok=True)] *)
Definition makedirs (path : string) : M unit :=
  emit (MakeDirs path);;
  ok ← made path;
  if ok : bool then ret tt else raise OSError.

(** [for x in xs: body(x)] *)
Fixpoint for_each {A} (xs : list A) (body : A -> M unit) : M unit :=
  match xs with
  | [] => ret tt
  | x :: rest => body x;; for_each rest body
  end.

(** A loop that carries an accumulator. *)
Fixpoint for_fold {A S} (xs : list A) (acc : S) (body : S -> A -> M S) : M S :=
  match xs with
  | [] => ret acc
  | x :: rest => acc' ← body acc x; for_fold rest acc' body
  end.

(** The state once the events [ev] have happened. *)
Definition after (st : state) (ev : list event) : state :=
  State (trace st ++ ev) (unread st).

(** [growing m]: running [m] only adds events to the trace. *)
Definition extends (st st' : state) : Prop := exists ev, trace st' = trace st ++ ev.

Definition growing {A} (m : M A) : Prop := forall w st, extends st (snd (m w st)).

(** A script started on a fresh console. The interpreter exits with status
    0 when the script returns and 1 when an exception reaches the top. *)
Definition start (w : world) : state := State [] (typed w).

Definition exit_code {A} (r : result A) : Z :=
  match r with
  | Ok _ => 0%Z
  | Raise _ => 1%Z
  end.

End Proc.

(* ================================================================== *)
(** * [clean_git_history.py] *)
(* ================================================================== *)

Module GitHistoryCleaner.
Import Re Text Proc.

(** A pattern of the catalog: the text of the Python raw string, which the
    findings quote, and the expression it denotes. *)
Record rule : Type := Rule { source : string; re : regex }.

(** The optional quote of the patterns: a bracket class of the double and
    the (escaped) single quote, followed by [?]. *)
Definition Q : string := "[" +:+ dq +:+ "\']?".
Definition quote : cls := one_of (dq +:+ "'").
(** [[\w\-]] and [(?::|=)] *)
Definition word_dash : cls := either uword (lit "-").
Definition colon_or_eq : regex := Alt (Chr (lit ":")) (Chr (lit "=")).

(** The common tail [Q\s*(?::|=)\s*Q[\w\-]{n,}Q], where [Q] is the optional
    quote. *)
Definition assigned_src (n : string) : string :=
  Q +:+ "\s*(?::|=)\s*" +:+ Q +:+ "[\w\-]{" +:+ n +:+ ",}" +:+ Q.
Definition assigned (n : nat) : list regex :=
  [opt quote; star uspace; colon_or_eq; star uspace; opt quote;
   at_least n word_dash; opt quote].

(** [self.sensitive_patterns], in the order of the source. *)
Definition sensitive_patterns : list rule := [
  (* API Keys *)
  Rule ("(?i)api[_-]?key" +:+ assigned_src "16")
       (seqs ([lits true "api"; opt (one_of "_-"); lits true "key"] ++ assigned 16));
  Rule ("(?i)api[_-]?secret" +:+ assigned_src "16")
       (seqs ([lits true "api"; opt (one_of "_-"); lits true "secret"] ++ assigned 16));
  (* Specific Service Keys *)
  Rule ("(?i)openai[_-]?api[_-]?key" +:+ Q +:+ "\s*(?::|=)\s*" +:+ Q +:+ "sk-[\w\-]+" +:+ Q)
       (seqs [lits true "openai"; opt (one_of "_-"); lits true "api";
              opt (one_of "_-"); lits true "key"; opt quote; star uspace;
              colon_or_eq; star uspace; opt quote; lits true "sk-";
              plus word_dash; opt quote]);
  Rule ("(?i)gemini[_-]?api[_-]?key" +:+ assigned_src "16")
       (seqs ([lits true "gemini"; opt (one_of "_-"); lits true "api";
               opt (one_of "_-"); lits true "key"] ++ assigned 16));
  Rule ("(?i)congress[_-]?api[_-]?key" +:+ assigned_src "16")
       (seqs ([lits true "congress"; opt (one_of "_-"); lits true "api";
               opt (one_of "_-"); lits true "key"] ++ assigned 16));
  Rule ("(?i)supabase[_-]?(?:url|key)" +:+ assigned_src "16")
       (seqs ([lits true "supabase"; opt (one_of "_-");
               Alt (lits true "url") (lits true "key")] ++ assigned 16));
  (* General Tokens and Secrets *)
  Rule ("(?i)token" +:+ assigned_src "16") (seqs (lits true "token" :: assigned 16));
  Rule ("(?i)secret" +:+ assigned_src "16") (seqs (lits true "secret" :: assigned 16));
  Rule ("(?i)password" +:+ assigned_src "8") (seqs (lits true "password" :: assigned 8));
  (* Environment Variables *)
  Rule ("(?i)VITE_[\w_]*KEY[\w_]*=" +:+ Q +:+ "[\w\-]{8,}" +:+ Q)
       (seqs [lits true "VITE_"; star uword; lits true "KEY"; star uword;
              Chr (lit "="); opt quote; at_least 8 word_dash; opt quote]);
  Rule ("(?i)VITE_[\w_]*SECRET[\w_]*=" +:+ Q +:+ "[\w\-]{8,}" +:+ Q)
       (seqs [lits true "VITE_"; star uword; lits true "SECRET"; star uword;
              Chr (lit "="); opt quote; at_least 8 word_dash; opt quote]);
  Rule ("(?i)VITE_[\w_]*TOKEN[\w_]*=" +:+ Q +:+ "[\w\-]{8,}" +:+ Q)
       (seqs [lits true "VITE_"; star uword; lits true "TOKEN"; star uword;
              Chr (lit "="); opt quote; at_least 8 word_dash; opt quote]);
  (* URLs with credentials *)
  Rule "(?i)https?://[^:\s]+:[^@\s]+@[^\s]+"
       (seqs [lits true "http"; opt (icase (lit "s")); lits true "://";
              plus (nope (either (lit ":") uspace)); Chr (lit ":");
              plus (nope (either (lit "@") uspace)); Chr (lit "@");
              plus (nope uspace)]);
  (* Common Environment File Patterns *)
  Rule "(?m)^\s*(?:export\s+)?[\w_]+=.+$"
       (seqs [Bol; star uspace; Alt (Seq (lits false "export") (plus uspace)) Eps;
              plus uword; Chr (lit "="); plus dot; Eol])
].

(** [self.sensitive_files] *)
Definition sensitive_files : list string :=
  [".env"; ".env.local"; ".env.development"; ".env.production"; ".env.staging";
   "credentials.json"; "config.json"; "secrets.json";
   "*.key"; "*.pem"; "*.pfx"; "*.p12"; "*.keystore"].

(** [f"[{commit_hash}] Found pattern: {pattern}"] *)
Definition finding (commit_hash pattern : string) : string :=
  "[" +:+ commit_hash +:+ "] Found pattern: " +:+ pattern.

(** The two nested loops of [scan_commit]: one [found_sensitive.add] per
    match of [re.finditer], into a set of strings. *)
Definition add_matches (commit_hash diff : string) (found : gset string)
    (pattern : rule) : gset string :=
  fold_left (fun found (_ : nat * nat) =>
               {[ finding commit_hash (source pattern) ]} ∪ found)
            (finditer (re pattern) (list_ascii_of_string diff)) found.

Definition scan_diff (commit_hash diff : string) : gset string :=
  fold_left (add_matches commit_hash diff) sensitive_patterns ∅.

Definition is_called_process_error (e : exn) : bool :=
  match e with CalledProcessError => true | _ => false end.

(** [scan_commit(self, commit_hash)] *)
Definition scan_commit (commit_hash : string) : M (gset string) :=
  try_except
    (diff ← check_output ["git"; "show"; commit_hash];
     mret (scan_diff commit_hash diff))
    is_called_process_error
    (print ("Error scanning commit " +:+ commit_hash);; mret ∅).

(** [enumerate(xs, i)] *)
Fixpoint enumerate {A} (i : nat) (xs : list A) : list (nat * A) :=
  match xs with
  | [] => []
  | x :: rest => (i, x) :: enumerate (S i) rest
  end.

(** [scan_history(self)]. [all_findings.extend(findings)] appends the
    elements of the set in its iteration order, which [elements] stands
    for. *)
Definition scan_history : M (list string) :=
  print "Scanning Git history for sensitive data...";;
  out ← check_output ["git"; "log"; "--format=%H"];
  let commits := splitlines out in
  let total_commits := length commits in
  all_findings ←
    for_fold (enumerate 1 commits) []
      (fun all_findings ic =>
         findings ← scan_commit (snd ic);
         let all_findings :=
           if decide (findings = ∅) then all_findings
           else all_findings ++ elements findings in
         print_no_end (cr +:+ "Scanning commits: " +:+ str_of_nat (fst ic) +:+ "/"
                          +:+ str_of_nat total_commits);;
         mret all_findings);
  print (nl +:+ "Scan complete!");;
  mret all_findings.

(** The command lines of [clean_history]. *)
Definition date_argv : list string := ["date"; "+%Y%m%d_%H%M%S"].
Definition bundle_argv (backup_dir : string) : list string :=
  ["git"; "bundle"; "create"; backup_dir +:+ "/backup.bundle"; "--all"].
Definition remove_files_argv : list string :=
  let sensitive_files_arg := join " " sensitive_files in
  ["git"; "filter-repo"; "--force"; "--invert-paths"; "--paths"; sensitive_files_arg].
Definition replace_text_argv : list string :=
  ["git"; "filter-repo"; "--force"; "--replace-text"; "-"].

(** [clean_history(self)] *)
Definition clean_history : M unit :=
  print "Creating backup of current state...";;
  stamp ← check_output date_argv;
  let backup_dir := "git_backup_" +:+ strip stamp in
  makedirs backup_dir;;
  run (bundle_argv backup_dir) None;;
  print (nl +:+ "Cleaning sensitive files from history...");;
  run remove_files_argv None;;
  print (nl +:+ "Removing sensitive data patterns...");;
  for_each sensitive_patterns
    (fun pattern =>
       run replace_text_argv
           (Some (source pattern +:+ "===>REMOVED_SENSITIVE_DATA" +:+ nl));;
       mret tt).

(** [main()] *)
Definition main : M unit :=
  print "Git History Cleaner";;
  print "==================";;
  print (nl +:+ "This script will:");;
  print "1. Scan your Git history for sensitive data";;
  print "2. Create a backup of your current repository";;
  print "3. Clean sensitive data from the history";;
  print (nl +:+ "Warning: This will rewrite your Git history!");;
  response ← input (nl +:+ "Do you want to proceed? (yes/no): ");
  if negb (String.eqb (lower response) "yes") then
    print "Operation cancelled."
  else
    findings ← scan_history;
    match findings with
    | _ :: _ =>
        print (nl +:+ "Found sensitive data in the following commits:");;
        for_each findings print;;
        response ← input (nl +:+ "Do you want to clean the repository? (yes/no): ");
        if String.eqb (lower response) "yes" then
          clean_history;;
          print (nl +:+ "Repository cleaned! Please:");;
          print "1. Review the changes";;
          print "2. Force push to remote: git push origin --force --all";;
          print "3. Update all sensitive credentials that were exposed"
        else
          print "Cleaning cancelled."
    | [] =>
        print (nl +:+ "No sensitive data found in Git history.")
    end.

(** A destructive step: a run of [git filter-repo]. *)
Definition is_filter_repo (argv : list string) : bool :=
  match argv with
  | g :: f :: _ => String.eqb g "git" && String.eqb f "filter-repo"
  | _ => false
  end.

(** The events of [clean_history] after the time stamp is known, when
    every step goes through. *)
Definition clean_history_events (stamp : string) : list event :=
  let backup_dir := "git_backup_" +:+ strip stamp in
  [Write ("Creating backup of current state..." +:+ nl);
   CheckOutput date_argv;
   MakeDirs backup_dir;
   Run (bundle_argv backup_dir) None;
   Write (nl +:+ "Cleaning sensitive files from history..." +:+ nl);
   Run remove_files_argv None;
   Write (nl +:+ "Removing sensitive data patterns..." +:+ nl)]
  ++ map (fun pattern =>
            Run replace_text_argv
                (Some (source pattern +:+ "===>REMOVED_SENSITIVE_DATA" +:+ nl)))
         sensitive_patterns.

(** What a commit adds to the list of [scan_history]. *)
Definition show_argv (commit_hash : string) : list string :=
  ["git"; "show"; commit_hash].
Definition log_argv : list string := ["git"; "log"; "--format=%H"].

Definition report (w : world) (commit_hash : string) : list string :=
  match spawn w (show_argv commit_hash) None with
  | Exited status (Decoded diff) =>
      if (status =? 0)%Z then elements (scan_diff commit_hash diff) else []
  | _ => []
  end.

(** The events of [scan_history] for one commit, and for the walk. *)
Definition commit_events (w : world) (i total : nat) (c : string) : list event :=
  CheckOutput (show_argv c) ::
  match spawn w (show_argv c) None with
  | Exited status (Decoded _) =>
      if (status =? 0)%Z then []
      else [Write ("Error scanning commit " +:+ c +:+ nl)]
  | _ => []
  end
  ++ [Write (cr +:+ "Scanning commits: " +:+ str_of_nat i +:+ "/" +:+ str_of_nat total)].

Fixpoint walk_events (w : world) (i total : nat) (commits : list string) : list event :=
  match commits with
  | [] => []
  | c :: rest => commit_events w i total c ++ walk_events w (S i) total rest
  end.

Definition scan_history_events (w : world) (commits : list string) : list event :=
  [Write ("Scanning Git history for sensitive data..." +:+ nl); CheckOutput log_argv]
  ++ walk_events w 1 (length commits) commits
  ++ [Write (nl +:+ "Scan complete!" +:+ nl)].

(** [git show] gave text for the commit, with whatever exit status. *)
Definition shown (w : world) (c : string) : Prop :=
  exists status text, spawn w (show_argv c) None = Exited status (Decoded text).

(** [git show] failed on the commit: [CalledProcessError]. *)
Definition unreadable (w : world) (c : string) : Prop :=
  exists status text, spawn w (show_argv c) None = Exited status (Decoded text)
                      /\ status <> 0%Z.

(** The new events of a run of [clean_history] are [guarded]: either no
    [git filter-repo] is among them, or they begin with the creation of the
    backup directory and the run of [git bundle create]. *)
Definition guarded (ev : list event) : Prop :=
  (forall argv stdin, In (Run argv stdin) ev -> is_filter_repo argv = false)
  \/ exists dir rest,
       ev = [Write ("Creating backup of current state..." +:+ nl);
             CheckOutput date_argv; MakeDirs dir; Run (bundle_argv dir) None] ++ rest.

End GitHistoryCleaner.

(* ================================================================== *)
(** * The path filter of the rewrite engine *)
(* ================================================================== *)

(** The engine, git-filter-repo, is not part of the repository. Its path
    filter is modelled after its manual, in the reading most favourable to
    the script: each operand of the path option names a file or a directory,
    and with [--invert-paths] every path an operand selects is dropped from
    the tree of every commit. *)
Module Engine.

Definition selects (operand path : string) : bool :=
  String.eqb operand path || String.prefix (operand +:+ "/") path.

(** The values that follow the option [flag] on a command line. *)
Fixpoint operands (flag : string) (argv : list string) : list string :=
  match argv with
  | f :: rest =>
      match rest with
      | v :: _ => if String.eqb f flag then v :: operands flag rest
                  else operands flag rest
      | [] => []
      end
  | [] => []
  end.

Definition tree : Type := list string.

Definition invert_paths (argv : list string) (t : tree) : tree :=
  List.filter (fun path =>
                 negb (existsb (fun o => selects o path) (operands "--paths" argv)))
              t.

(** One tree per commit. *)
Definition rewrite_history (argv : list string) (h : list tree) : list tree :=
  map (invert_paths argv) h.

End Engine.


(* ================================================================== *)
(** * Vocabulary of the properties *)
(* ================================================================== *)

Module Spec.
Import Re.

(** ** What it means for an expression to match

    [matches r prev s n]: at the cursor with [prev] before it and [s] after
    it, [r] matches the next [n] characters. This is the meaning of the
    expression, with no order among the matches. *)

Definition within (hi : option nat) (n : nat) : Prop :=
  match hi with
  | Some h => n <= h
  | None => True
  end.

Inductive matches : regex -> option ascii -> bytes -> nat -> Prop :=
| M_eps prev s : matches Eps prev s 0
| M_chr p prev c s : p c = true -> matches (Chr p) prev (c :: s) 1
| M_rep p lo hi prev s n :
    lo <= n -> within hi n -> n <= length s ->
    Forall (fun c => p c = true) (firstn n s) ->
    matches (Rep p lo hi) prev s n
| M_seq r1 r2 prev s n1 n2 :
    matches r1 prev s n1 ->
    matches r2 (fst (advance n1 prev s)) (snd (advance n1 prev s)) n2 ->
    matches (Seq r1 r2) prev s (n1 + n2)
| M_alt_l r1 r2 prev s n : matches r1 prev s n -> matches (Alt r1 r2) prev s n
| M_alt_r r1 r2 prev s n : matches r2 prev s n -> matches (Alt r1 r2) prev s n
| M_bol prev s : at_bol prev = true -> matches Bol prev s 0
| M_eol prev s : at_eol s = true -> matches Eol prev s 0.

(** [occurs r s]: somewhere in [s] the expression matches, that is, [s]
    contains a string that matches the pattern. *)
Definition occurs (r : regex) (s : bytes) : Prop :=
  exists k n, k <= length s /\
    matches r (fst (advance k None s)) (snd (advance k None s)) n.

(** The same, decided by running the matcher at every position. *)
Definition found_at (r : regex) (s : bytes) (k : nat) : bool :=
  match ends r (fst (advance k None s)) (snd (advance k None s)) with
  | [] => false
  | _ :: _ => true
  end.
Definition occursb (r : regex) (s : bytes) : bool :=
  existsb (found_at r s) (seq 0 (S (length s))).

(** [infix w s]: [w] is a contiguous part of [s]. *)
Definition infix (w s : bytes) : Prop := exists a z, s = a ++ w ++ z.

(** ** Static properties of an expression *)

(** No [^] or [$]: whether the expression matches a string does not depend
    on what surrounds it. *)
Fixpoint anchor_free (r : regex) : bool :=
  match r with
  | Eps | Chr _ | Rep _ _ _ => true
  | Seq r1 r2 | Alt r1 r2 => anchor_free r1 && anchor_free r2
  | Bol | Eol => false
  end.

(** The expression may match the empty string. *)
Fixpoint nullable (r : regex) : bool :=
  match r with
  | Eps | Bol | Eol => true
  | Chr _ => false
  | Rep _ lo _ => lo =? 0
  | Seq r1 r2 => nullable r1 && nullable r2
  | Alt r1 r2 => nullable r1 || nullable r2
  end.

(** Some class of the expression accepts the character [c]. *)
Fixpoint accepts (r : regex) (c : ascii) : bool :=
  match r with
  | Eps | Bol | Eol => false
  | Chr p | Rep p _ _ => p c
  | Seq r1 r2 | Alt r1 r2 => accepts r1 c || accepts r2 c
  end.

(** [***REMOVED***] is three stars, the word [REMOVED], three stars. A rule
    is [tame] when no match of it can touch a marker: it has no anchors,
    never matches the empty string, no class of it accepts a star, and it
    matches nowhere inside the word. *)
Definition star_char : ascii := "*".
Definition marker_word : bytes := b "REMOVED".
Definition tame (r : regex) : bool :=
  anchor_free r && negb (nullable r) && negb (accepts r star_char)
  && negb (occursb r marker_word).

(** [quiet r t]: no match of [r] starts at the head of [t], whatever
    precedes it. [free r s]: no match of [r] starts anywhere in [s]. *)
Definition quiet (r : regex) (t : bytes) : Prop :=
  forall prev n, ~ matches r prev t n.
Definition free (r : regex) (s : bytes) : Prop :=
  forall k, k <= length s -> quiet r (skipn k s).

(** A run of at least [n] characters of the class [p] inside [s]. *)
Definition has_run (p : cls) (n : nat) (s : bytes) : Prop :=
  exists w, infix w s /\ n <= length w /\ Forall (fun c => p c = true) w.

(** ** One substitution pass, as a relation

    [edits ok m s out]: [out] is [s] where some parts were cut out and
    replaced by [m], and every character that was copied stood at the head
    of a suffix satisfying [ok]. *)
Inductive edits (ok : bytes -> Prop) (m : bytes) : bytes -> bytes -> Prop :=
| E_nil : edits ok m [] []
| E_copy c s out : ok (c :: s) -> edits ok m s out -> edits ok m (c :: s) (c :: out)
| E_cut w s out : edits ok m s out -> edits ok m (w ++ s) (m ++ out).

End Spec.

(* ================================================================== *)
(** * Concrete runs *)
(* ================================================================== *)

Module Scenarios.
Import Re CleanRepo Text Proc GitHistoryCleaner.

(** A world given by the outcome of each command line; every other
    command exits with status 0 and no output, directories can be created. *)
Fixpoint outcome_of (table : list (list string * outcome)) (argv : list string) : outcome :=
  match table with
  | [] => Exited 0 (Decoded "")
  | (key, o) :: rest => if decide (argv = key) then o else outcome_of rest argv
  end.

Definition scripted (table : list (list string * outcome)) (typed : list string) : world :=
  World (fun argv _ => outcome_of table argv) (fun _ => true) typed.

Definition the_stamp : string := "20240101_120000".
Definition the_dir : string := "git_backup_20240101_120000".

(** [git bundle create] fails with status 128. *)
Definition bundle_fails : world :=
  scripted [(date_argv, Exited 0 (Decoded (the_stamp +:+ nl)));
            (bundle_argv the_dir, Exited 128 (Decoded ""))] [].

(** [date] cannot be started. *)
Definition no_clock : world := scripted [(date_argv, SpawnFailed)] [].

(** The backup directory cannot be created. *)
Definition no_room : world :=
  World (fun argv _ => outcome_of [(date_argv, Exited 0 (Decoded (the_stamp +:+ nl)))] argv)
        (fun _ => false) [].

(** A history of one commit that [git show] cannot read. *)
Definition one_bad_commit : world :=
  scripted [(log_argv, Exited 0 (Decoded ("c1" +:+ nl)));
            (show_argv "c1", Exited 128 (Decoded ""))] ["yes"].

(** A history of two commits: the newer one cannot be read, the older one
    holds a token. The user asks for the scan and declines the cleaning. *)
Definition two_commits : world :=
  scripted [(log_argv, Exited 0 (Decoded ("c1" +:+ nl +:+ "c2" +:+ nl)));
            (show_argv "c1", Exited 128 (Decoded ""));
            (show_argv "c2", Exited 0 (Decoded "token: aaaaaaaaaaaaaaaa"))]
           ["yes"; "no"].

(** Not a repository: [git log] fails. *)
Definition no_repo : world :=
  scripted [(log_argv, Exited 128 (Decoded ""))] ["yes"].

(** The [i]-th pattern of the catalog, counted from 0. *)
Definition rule_at (i : nat) : rule := nth i sensitive_patterns (Rule "" Eps).

(** Contents. *)
Definition commit_id : bytes := b "3f2a9c1b7d4e5f60718293a4b5c6d7e8f9012345".
Definition nested_url : bytes :=
  b "http://http://a/x-AAAAAAAAAAAAAAAAAAAAAAAA/x-AAAAAAAAAAAAAAAAAAAAAAAA".
Definition scenario_a : string := "api_key: abcdef0123456789".
Definition two_tokens : string := "token: aaaaaaaaaaaaaaaa token: bbbbbbbbbbbbbbbb".

(** The number of matches [re.finditer] yields over the whole catalog. *)
Definition count_matches (diff : string) : nat :=
  length (flat_map (fun p => finditer (re p) (list_ascii_of_string diff))
                   sensitive_patterns).

End Scenarios.

(* ================================================================== *)
(** * Vocabulary of the further properties *)
(* ================================================================== *)

Module Shapes.
Import Re CleanRepo Spec.

(** The rules of [clean_repo.py] other than the URL-token rule. *)
Definition settled_rules : list regex :=
  [p_jwt; p_hex; p_api_key; p_secret_key; p_password; p_token; p_sk; p_slack;
   p_url_cred].

(** No match of [r] can contain the character [c], and [r] has no anchors
    and does not match the empty string: [c] separates the matches of [r]. *)
Definition splits_at (c : ascii) (r : regex) : bool :=
  anchor_free r && negb (nullable r) && negb (accepts r c).

(** The number of [clean_blob] invocations on the object [ref]. *)
Fixpoint blob_calls (ref : nat) (cs : list call) : nat :=
  match cs with
  | [] => 0
  | CallBlob r :: rest => (if r =? ref then 1 else 0) + blob_calls ref rest
  | CallMessage _ :: rest => blob_calls ref rest
  end.

(** Contents for the examples: bytes that are no text, and two lines. *)
Definition binary_blob : bytes := map ascii_of_nat [0; 255; 254; 10; 104; 105; 0].
Definition two_words : bytes := b "token_abc hello".

End Shapes.

Module Conduct.
Import Re Text Proc GitHistoryCleaner Scenarios.

(** [confined allowed m]: whatever the world, running [m] appends events
    that all satisfy [allowed], and reads no input. *)
Definition confined {A} (allowed : event -> bool) (m : M A) : Prop :=
  forall w st, exists ev,
    snd (m w st) = after st ev /\ forallb allowed ev = true.

(** The two commands of the scan. *)
Definition is_git_read (argv : list string) : bool :=
  match argv with
  | [g; c; _] =>
      String.eqb g "git"
      && (String.eqb c "show" || bool_decide (argv = log_argv))
  | _ => false
  end.

(** An event of a scan: console output, or [check_output] of [git log] or
    [git show]. *)
Definition reads_only (e : event) : bool :=
  match e with
  | Write _ => true
  | CheckOutput argv => is_git_read argv
  | _ => false
  end.

(** An event that changes the repository or the disk. *)
Definition mutates (e : event) : bool :=
  match e with
  | Run _ _ | MakeDirs _ => true
  | _ => false
  end.

(** The command lines given to [check_output], in order. *)
Fixpoint commands (ev : list event) : list (list string) :=
  match ev with
  | [] => []
  | CheckOutput argv :: rest => argv :: commands rest
  | _ :: rest => commands rest
  end.

(** [git show] gave no text for the commit: it could not be started, or
    its output does not decode. *)
Definition garbled (w : world) (c : string) : Prop :=
  spawn w (show_argv c) None = SpawnFailed
  \/ exists status, spawn w (show_argv c) None = Exited status Undecodable.

(** The console of [main] up to the first question, and its two
    questions. *)
Definition banner : list event :=
  [Write ("Git History Cleaner" +:+ nl);
   Write ("==================" +:+ nl);
   Write (nl +:+ "This script will:" +:+ nl);
   Write ("1. Scan your Git history for sensitive data" +:+ nl);
   Write ("2. Create a backup of your current repository" +:+ nl);
   Write ("3. Clean sensitive data from the history" +:+ nl);
   Write (nl +:+ "Warning: This will rewrite your Git history!" +:+ nl)].
Definition ask_proceed : event := Input (nl +:+ "Do you want to proceed? (yes/no): ").
Definition ask_clean : event :=
  Input (nl +:+ "Do you want to clean the repository? (yes/no): ").

(** The console of [main] after the cleaning. *)
Definition success_lines : list event :=
  [Write (nl +:+ "Repository cleaned! Please:" +:+ nl);
   Write ("1. Review the changes" +:+ nl);
   Write ("2. Force push to remote: git push origin --force --all" +:+ nl);
   Write ("3. Update all sensitive credentials that were exposed" +:+ nl)].

(** What [main] writes when the scan has findings. *)
Definition findings_lines (findings : list string) : list event :=
  Write (nl +:+ "Found sensitive data in the following commits:" +:+ nl)
  :: map (fun f => Write (f +:+ nl)) findings.

(** A history of one commit holding a token, where every [git bundle] and
    [git filter-repo] run fails with status 1; the user says yes twice. *)
Definition rewrites_fail : world :=
  World (fun argv _ =>
           if bool_decide (argv = log_argv) then Exited 0 (Decoded ("c2" +:+ nl))
           else if bool_decide (argv = show_argv "c2")
                then Exited 0 (Decoded "token: aaaaaaaaaaaaaaaa")
           else if bool_decide (argv = date_argv)
                then Exited 0 (Decoded (the_stamp +:+ nl))
           else Exited 1 (Decoded ""))
        (fun _ => true) ["yes"; "YES"].

(** [git] cannot be started. *)
Definition no_git : world :=
  World (fun argv _ =>
           if bool_decide (argv = date_argv)
           then Exited 0 (Decoded (the_stamp +:+ nl)) else SpawnFailed)
        (fun _ => true) [].

(** A history of three commits; the output of [git show] for the second
    does not decode. *)
Definition one_garbled : world :=
  scripted [(log_argv, Exited 0 (Decoded ("c1" +:+ nl +:+ "c2" +:+ nl +:+ "c3" +:+ nl)));
            (show_argv "c1", Exited 0 (Decoded "token: aaaaaaaaaaaaaaaa"));
            (show_argv "c2", Exited 0 Undecodable);
            (show_argv "c3", Exited 0 (Decoded ""))]
           ["yes"; "no"].

End Conduct.

(** Two more runs and contents, and names for the progress line and the
    loop body of [scan_history]. *)
Module Cases.
Import Re CleanRepo Text Proc GitHistoryCleaner Scenarios.

(** [git show] prints a commit that holds a token and then fails with
    status 128. *)
Definition show_fails_late : world :=
  scripted [(log_argv, Exited 0 (Decoded ("c1" +:+ nl)));
            (show_argv "c1", Exited 128 (Decoded "token: aaaaaaaaaaaaaaaa"))]
           ["yes"].

(** Thirty-one [a], and the same followed by a JSON web token: the run of
    [[a-f0-9]] is the thirty-one [a] and the [e] of the token. *)
Definition thirty_one_a : bytes := repeat "a"%char 31.
Definition run_into_jwt : bytes := thirty_one_a ++ b "eyJa.b.c".

(** The progress line of [scan_history]. *)
Definition progress (i total : nat) : event :=
  Write (cr +:+ "Scanning commits: " +:+ str_of_nat i +:+ "/" +:+ str_of_nat total).

(** The body of the loop of [scan_history]. *)
Definition walk_body (total : nat) (all_findings : list string) (ic : nat * string)
    : M (list string) :=
  findings ← scan_commit (snd ic);
  let all_findings :=
    if decide (findings = ∅) then all_findings
    else all_findings ++ elements findings in
  print_no_end (cr +:+ "Scanning commits: " +:+ str_of_nat (fst ic) +:+ "/"
                   +:+ str_of_nat total);;
  mret all_findings.

End Cases.

(* ================================================================== *)
(** * Facts about the matcher and the substitution pass *)
(* ================================================================== *)

Module ReFacts.
Import Re Spec.

Lemma span_bound p hi s : within hi (span p hi s) /\ span p hi s <= length s.
Proof.
  revert hi. induction s as [|c s IH]; intros hi; simpl.
  - split; [destruct hi; simpl; lia | lia].
  - destruct (p c); [|split; [destruct hi; simpl; lia | lia]].
    destruct hi as [[|k]|]; simpl.
    + split; lia.
    + destruct (IH (Some k)) as [H1 H2]. simpl in H1. split; lia.
    + destruct (IH None). split; [exact I | lia].
Qed.

Lemma span_all p hi s : Forall (fun c => p c = true) (firstn (span p hi s) s).
Proof.
  revert hi. induction s as [|c s IH]; intros hi; simpl; [constructor|].
  destruct (p c) eqn:E; [|constructor].
  destruct hi as [[|k]|]; simpl; [constructor| |]; constructor; auto.
Qed.

Lemma span_max p hi s n :
  within hi n -> n <= length s -> Forall (fun c => p c = true) (firstn n s) ->
  n <= span p hi s.
Proof.
  revert hi n. induction s as [|c s IH]; intros hi n Hw Hn Hall; simpl in *.
  - lia.
  - destruct n as [|n]; [lia|]. simpl in Hall. inversion Hall; subst.
    rewrite H1. destruct hi as [[|k]|]; simpl in Hw.
    + lia.
    + apply le_n_S, IH; simpl; auto; lia.
    + apply le_n_S, IH; simpl; auto; lia.
Qed.

Lemma Forall_firstn_le {A} (P : A -> Prop) n m (s : list A) :
  n <= m -> Forall P (firstn m s) -> Forall P (firstn n s).
Proof.
  revert n m. induction s as [|c s IH]; intros n m Hle H.
  - destruct n; constructor.
  - destruct n as [|n]; [constructor|]. destruct m as [|m]; [lia|].
    simpl in *. inversion H; subst. constructor; auto. apply (IH n m); auto; lia.
Qed.

Lemma in_countdown n m lo : In n (countdown m lo) <-> lo <= n /\ n <= m.
Proof.
  induction m as [|m IH]; simpl.
  - destruct lo; simpl; [|intuition lia]. intuition lia.
  - destruct (S m <? lo) eqn:E.
    + apply Nat.ltb_lt in E. simpl. intuition lia.
    + apply Nat.ltb_ge in E. simpl. rewrite IH. intuition lia.
Qed.

Lemma matches_length r prev s n : matches r prev s n -> n <= length s.
Proof.
  induction 1; simpl; try lia.
  assert (Hlen : forall k p t, k <= length t -> length (snd (advance k p t)) = length t - k).
  { clear. induction k; intros p t Hk; destruct t; simpl in *; try lia.
    rewrite IHk; lia. }
  rewrite Hlen in IHmatches2; lia.
Qed.

Lemma ends_sound r : forall prev s n, In n (ends r prev s) -> matches r prev s n.
Proof.
  induction r; intros prev s n Hin; simpl in Hin.
  - destruct Hin as [<-|[]]. constructor.
  - destruct s as [|c s]; [destruct Hin|]. destruct (p c) eqn:E; [|destruct Hin].
    destruct Hin as [<-|[]]. constructor; auto.
  - apply in_countdown in Hin. destruct Hin as [Hlo Hhi].
    destruct (span_bound p hi s) as [Hw Hlen].
    constructor; auto.
    + destruct hi; simpl in *; lia.
    + lia.
    + eapply Forall_firstn_le; [exact Hhi | apply span_all].
  - apply in_flat_map in Hin. destruct Hin as [n1 [H1 H2]].
    destruct (advance n1 prev s) as [p' s'] eqn:E.
    apply in_map_iff in H2. destruct H2 as [n2 [<- H2]].
    econstructor; eauto. rewrite E. simpl. auto.
  - apply in_app_iff in Hin. destruct Hin; [apply M_alt_l | apply M_alt_r]; auto.
  - destruct (at_bol prev) eqn:E; [|destruct Hin]. destruct Hin as [<-|[]]. constructor; auto.
  - destruct (at_eol s) eqn:E; [|destruct Hin]. destruct Hin as [<-|[]]. constructor; auto.
Qed.

Lemma ends_complete r prev s n : matches r prev s n -> In n (ends r prev s).
Proof.
  induction 1; simpl.
  - auto.
  - rewrite H. simpl; auto.
  - apply in_countdown. split; auto. apply span_max; auto.
  - apply in_flat_map. exists n1. split; auto.
    destruct (advance n1 prev s) as [p' s']. simpl in *.
    apply in_map. auto.
  - apply in_app_iff; auto.
  - apply in_app_iff; auto.
  - rewrite H; simpl; auto.
  - rewrite H; simpl; auto.
Qed.

End ReFacts.

Module SubFacts.
Import Re Spec ReFacts.

Lemma advance_snd n : forall prev s, snd (advance n prev s) = skipn n s.
Proof.
  induction n; intros prev s; destruct s; simpl; auto.
Qed.

(** The head of [match_here]. *)
Lemma match_here_some r prev s n :
  match_here r prev s false = Some n -> matches r prev s n.
Proof.
  unfold match_here. intros H. apply ends_sound.
  destruct (ends r prev s); simpl in H; [discriminate|]. injection H as ->. left; auto.
Qed.

Lemma match_here_none r prev s :
  match_here r prev s false = None -> forall n, ~ matches r prev s n.
Proof.
  unfold match_here. intros H n Hm. apply ends_complete in Hm.
  destruct (ends r prev s); [destruct Hm | discriminate].
Qed.

Lemma match_here_adv_some r prev s n :
  match_here r prev s true = Some n -> matches r prev s n /\ n <> 0.
Proof.
  unfold match_here. intros H.
  destruct (List.filter _ _) as [|x l] eqn:E; simpl in H; [discriminate|]. injection H as ->.
  assert (Hin : In n (List.filter (fun n => negb (n =? 0)) (ends r prev s))) by (rewrite E; left; auto).
  apply filter_In in Hin. destruct Hin as [Hin Hnz]. split; [apply ends_sound; auto|].
  destruct n; [discriminate | lia].
Qed.

Lemma nullable_sound r prev s n : matches r prev s n -> n = 0 -> nullable r = true.
Proof.
  induction 1; intros Hn; simpl; auto; try discriminate.
  - apply Nat.eqb_eq. lia.
  - rewrite IHmatches1, IHmatches2 by lia. auto.
  - rewrite IHmatches; auto.
  - rewrite IHmatches; auto. apply orb_true_r.
Qed.

(** ** [finditer] finds a match when there is one *)

Lemma finditer_go_found r : forall s prev pos skip k n,
  skip <= k -> k <= length s ->
  matches r (fst (advance k prev s)) (snd (advance k prev s)) n ->
  finditer_go r prev s pos skip <> [].
Proof.
  induction s as [|c s IH]; intros prev pos skip k n Hsk Hk Hm.
  - simpl in Hk. assert (k = 0) by lia. assert (skip = 0) by lia. subst. simpl in *.
    destruct (match_here r prev [] false) as [[|m]|] eqn:E.
    + discriminate.
    + discriminate.
    + exfalso. eapply match_here_none; eauto.
  - destruct skip as [|j].
    + simpl. destruct (match_here r prev (c :: s) false) as [[|m]|] eqn:E; try discriminate.
      destruct k as [|k].
      * exfalso. eapply match_here_none; eauto.
      * simpl in Hm. eapply (IH (Some c) (S pos) 0 k n); eauto; simpl in *; lia.
    + destruct k as [|k]; [lia|]. simpl in *.
      eapply (IH (Some c) (S pos) j k n); eauto; lia.
Qed.

Lemma finditer_found r s : occurs r s -> finditer r s <> [].
Proof.
  intros (k & n & Hk & Hm). unfold finditer.
  apply (finditer_go_found r s None 0 0 k n); [lia | exact Hk | exact Hm].
Qed.

Lemma finditer_go_occurs r : forall s prev pos skip,
  (forall k, k <= length s -> ends r (fst (advance k prev s)) (snd (advance k prev s)) = []) ->
  finditer_go r prev s pos skip = [].
Proof.
  induction s as [|c s IH]; intros prev pos skip Hno.
  - destruct skip; simpl; auto.
    unfold match_here. pose proof (Hno 0 (Nat.le_refl _)) as H0. simpl in H0.
    rewrite H0; simpl; auto.
  - destruct skip; simpl.
    + unfold match_here. pose proof (Hno 0 (Nat.le_0_l _)) as H0. simpl in H0.
      rewrite H0. simpl.
      apply IH. intros k Hk. apply (Hno (S k)). simpl; lia.
    + apply IH. intros k Hk. apply (Hno (S k)). simpl; lia.
Qed.

Lemma occursb_spec r s : occursb r s = true <-> occurs r s.
Proof.
  unfold occursb, occurs. rewrite existsb_exists. split.
  - intros (k & Hin & Hf). apply in_seq in Hin. unfold found_at in Hf.
    destruct (ends r _ _) as [|n l] eqn:E; [discriminate|].
    exists k, n. split; [lia|]. apply ends_sound. rewrite E. left; auto.
  - intros (k & n & Hk & Hm). exists k. split; [apply in_seq; lia|].
    unfold found_at. apply ends_complete in Hm.
    destruct (ends r _ _); [destruct Hm | auto].
Qed.

Lemma finditer_nonempty_iff r s : finditer r s <> [] <-> occurs r s.
Proof.
  split; [|apply finditer_found].
  intros Hne. apply occursb_spec. destruct (occursb r s) eqn:E; auto.
  exfalso. apply Hne. unfold finditer. apply finditer_go_occurs.
  intros k Hk. unfold occursb in E.
  destruct (ends r _ _) as [|n l] eqn:E2; auto. exfalso.
  assert (Ht : existsb (found_at r s) (seq 0 (S (length s))) = true).
  { apply existsb_exists. exists k. split; [apply in_seq; lia|]. unfold found_at. rewrite E2. auto. }
  congruence.
Qed.

End SubFacts.

Module EditFacts.
Import Re Spec ReFacts SubFacts.

(** ** Matching is local when there are no anchors *)

Lemma firstn_split {A} n1 n2 (s s' : list A) :
  n1 + n2 <= length s -> firstn (n1 + n2) s = firstn (n1 + n2) s' ->
  firstn n1 s = firstn n1 s' /\ firstn n2 (skipn n1 s) = firstn n2 (skipn n1 s').
Proof.
  revert s s'. induction n1 as [|n1 IH]; intros s s' Hlen H; simpl in *; auto.
  destruct s as [|c s]; simpl in *; [lia|].
  destruct s' as [|c' s']; simpl in *; [discriminate|].
  injection H as -> H. destruct (IH s s') as [H1 H2]; auto; [lia|]. split; congruence.
Qed.

Lemma firstn_eq_length {A} n (s s' : list A) :
  n <= length s -> firstn n s = firstn n s' -> n <= length s'.
Proof.
  intros Hn H. assert (Hl : length (firstn n s') = n).
  { rewrite <- H. apply firstn_length_le; auto. }
  rewrite length_firstn in Hl. lia.
Qed.

Lemma matches_local r prev s n :
  matches r prev s n -> anchor_free r = true ->
  forall prev' s', firstn n s = firstn n s' -> matches r prev' s' n.
Proof.
  induction 1; intros Haf prev' s' Heq; simpl in Haf; try discriminate.
  - constructor.
  - destruct s' as [|c' s']; simpl in Heq; [discriminate|]. injection Heq as <-.
    constructor; auto.
  - constructor; auto.
    + eapply firstn_eq_length; eauto.
    + rewrite <- Heq; auto.
  - apply andb_true_iff in Haf. destruct Haf as [Ha1 Ha2].
    pose proof (matches_length _ _ _ _ H) as L1.
    pose proof (matches_length _ _ _ _ H0) as L2.
    rewrite advance_snd in L2. rewrite length_skipn in L2.
    destruct (firstn_split n1 n2 s s') as [E1 E2]; auto; [lia|].
    constructor; [apply IHmatches1; auto|].
    apply IHmatches2; auto. rewrite !advance_snd. auto.
  - apply andb_true_iff in Haf. destruct Haf. apply M_alt_l; auto.
  - apply andb_true_iff in Haf. destruct Haf. apply M_alt_r; auto.
Qed.

(** A match only contains characters that some class accepts. *)
Lemma matches_accepts r prev s n :
  matches r prev s n -> forall c, In c (firstn n s) -> accepts r c = true.
Proof.
  induction 1; intros x Hin; simpl in *; try contradiction.
  - destruct Hin as [<-|[]]; auto.
  - rewrite Forall_forall in H2. apply H2. apply list_elem_of_In. auto.
  - rewrite <- (firstn_skipn n1 (firstn (n1 + n2) s)) in Hin.
    apply in_app_iff in Hin. apply orb_true_iff.
    rewrite firstn_firstn in Hin. replace (Init.Nat.min n1 (n1 + n2)) with n1 in Hin by lia.
    destruct Hin as [Hin|Hin]; [left; auto|right].
    apply IHmatches2. rewrite advance_snd.
    rewrite skipn_firstn_comm in Hin. replace (n1 + n2 - n1) with n2 in Hin by lia. auto.
  - rewrite IHmatches; auto.
  - rewrite IHmatches; auto. apply orb_true_r.
Qed.

End EditFacts.

Module PassFacts.
Import Re Spec ReFacts SubFacts EditFacts.

(** ** One pass of [re.sub] *)

Lemma sub_go_skip r m : forall k s prev,
  k <= length s ->
  sub_go r m prev s k = sub_go r m (fst (advance k prev s)) (skipn k s) 0.
Proof.
  induction k as [|k IH]; intros s prev Hk.
  - destruct s; reflexivity.
  - destruct s as [|c s]; simpl in Hk; [lia|].
    change (sub_go r m prev (c :: s) (S k)) with (sub_go r m (Some c) s k).
    rewrite IH by lia. reflexivity.
Qed.

Lemma sub_go_unfold r m prev s :
  sub_go r m prev s 0 =
    match match_here r prev s false with
    | None => match s with c :: s' => c :: sub_go r m (Some c) s' 0 | [] => [] end
    | Some (S n) => m ++ match s with c :: s' => sub_go r m (Some c) s' n | [] => [] end
    | Some 0 =>
        m ++ match match_here r prev s true with
             | Some (S n) => m ++ match s with c :: s' => sub_go r m (Some c) s' n | [] => [] end
             | _ => match s with c :: s' => c :: sub_go r m (Some c) s' 0 | [] => [] end
             end
    end.
Proof. destruct s; reflexivity. Qed.

(** A match of [S n] characters at the head of [s], and what [sub_go] does
    with the rest. *)
Lemma drop_shape r m prev s n :
  matches r prev s (S n) ->
  exists c s', s = c :: s' /\ n <= length s' /\
    s = (c :: firstn n s') ++ skipn n s' /\
    sub_go r m (Some c) s' n = sub_go r m (fst (advance n (Some c) s')) (skipn n s') 0.
Proof.
  intros Hm. apply matches_length in Hm.
  destruct s as [|c s']; simpl in Hm; [lia|].
  exists c, s'. split; auto. split; [lia|]. split.
  - simpl. rewrite firstn_skipn. auto.
  - apply sub_go_skip. lia.
Qed.

Lemma sub_go_edits_any r m : forall L s prev,
  length s <= L -> edits (fun _ => True) m s (sub_go r m prev s 0).
Proof.
  induction L as [|L IH]; intros s prev HL.
  - destruct s; simpl in HL; [|lia]. rewrite sub_go_unfold.
    destruct (match_here r prev [] false) as [[|n]|].
    + apply (E_cut _ _ []).
      destruct (match_here r prev [] true) as [[|n']|]; try constructor.
      apply (E_cut _ _ []). constructor.
    + apply (E_cut _ _ []). constructor.
    + constructor.
  - rewrite sub_go_unfold.
    assert (Hcopy : edits (fun _ => True) m s
              match s with c :: s' => c :: sub_go r m (Some c) s' 0 | [] => [] end).
    { destruct s as [|c s']; [constructor|]. constructor; auto. apply IH. simpl in HL; lia. }
    assert (Hdrop : forall n, matches r prev s (S n) ->
              edits (fun _ => True) m s
                (m ++ match s with c :: s' => sub_go r m (Some c) s' n | [] => [] end)).
    { intros n Hm. destruct (drop_shape r m prev s n Hm) as (c & s' & -> & Hn & Hs & Hgo).
      rewrite Hgo. rewrite Hs at 1. apply E_cut. apply IH.
      rewrite length_skipn. simpl in HL. lia. }
    destruct (match_here r prev s false) as [[|n]|] eqn:E.
    + apply (E_cut _ _ []).
      destruct (match_here r prev s true) as [[|n']|] eqn:E'; auto.
      apply Hdrop. apply match_here_adv_some in E'. tauto.
    + apply Hdrop. apply match_here_some; auto.
    + auto.
Qed.

Lemma sub_edits_any r m s : edits (fun _ => True) m s (sub r m s).
Proof. apply (sub_go_edits_any r m (length s)); auto. Qed.

Lemma sub_go_edits r m :
  nullable r = false -> anchor_free r = true ->
  forall L s prev, length s <= L -> edits (quiet r) m s (sub_go r m prev s 0).
Proof.
  intros Hnn Haf. induction L as [|L IH]; intros s prev HL.
  - destruct s; simpl in HL; [|lia]. rewrite sub_go_unfold.
    destruct (match_here r prev [] false) as [n|] eqn:E; [|constructor].
    apply match_here_some in E. pose proof (matches_length _ _ _ _ E) as Hl. simpl in Hl.
    assert (n = 0) by lia. subst. pose proof (nullable_sound _ _ _ _ E eq_refl). congruence.
  - rewrite sub_go_unfold.
    destruct (match_here r prev s false) as [[|n]|] eqn:E.
    + apply match_here_some in E. pose proof (nullable_sound _ _ _ _ E eq_refl). congruence.
    + apply match_here_some in E.
      destruct (drop_shape r m prev s n E) as (c & s' & -> & Hn & Hs & Hgo).
      rewrite Hgo. rewrite Hs at 1. apply E_cut. apply IH.
      rewrite length_skipn. simpl in HL. lia.
    + destruct s as [|c s']; [constructor|]. constructor.
      * intros prev' n Hm. eapply match_here_none; eauto.
        eapply matches_local; eauto.
      * apply IH. simpl in HL; lia.
Qed.

Lemma sub_edits r m s :
  nullable r = false -> anchor_free r = true -> edits (quiet r) m s (sub r m s).
Proof. intros. apply (sub_go_edits r m) with (L := length s); auto. Qed.

(** Where nothing matches, the pass changes nothing. *)
Lemma free_tail r c s : free r (c :: s) -> free r s.
Proof. intros H k Hk. apply (H (S k)). simpl; lia. Qed.

Lemma sub_go_free r m : forall s prev, free r s -> sub_go r m prev s 0 = s.
Proof.
  induction s as [|c s IH]; intros prev Hf; rewrite sub_go_unfold.
  - destruct (match_here r prev [] false) as [n|] eqn:E; auto.
    apply match_here_some in E. exfalso. apply (Hf 0 (Nat.le_refl _) prev n). exact E.
  - destruct (match_here r prev (c :: s) false) as [n|] eqn:E.
    + apply match_here_some in E. exfalso. apply (Hf 0 (Nat.le_0_l _) prev n). exact E.
    + f_equal. apply IH. eapply free_tail; eauto.
Qed.

Lemma sub_free r m s : free r s -> sub r m s = s.
Proof. apply sub_go_free. Qed.

End PassFacts.

Module MarkerFacts.
Import Re CleanRepo Spec ReFacts SubFacts EditFacts PassFacts.

Lemma tame_parts r :
  tame r = true ->
  anchor_free r = true /\ nullable r = false /\ accepts r star_char = false
  /\ occursb r marker_word = false.
Proof.
  unfold tame. rewrite !andb_true_iff, !negb_true_iff. tauto.
Qed.

Lemma free_nil r : nullable r = false -> free r [].
Proof.
  intros Hnn k Hk prev n Hm. destruct k; simpl in *; [|lia].
  pose proof (matches_length _ _ _ _ Hm) as Hl. simpl in Hl.
  assert (n = 0) by lia. pose proof (nullable_sound _ _ _ _ Hm H). congruence.
Qed.

Lemma free_cons r c s : quiet r (c :: s) -> free r s -> free r (c :: s).
Proof.
  intros Hq Hf k Hk. destruct k as [|k]; simpl; auto. apply Hf. simpl in Hk. lia.
Qed.

Lemma free_app_r r w s : free r (w ++ s) -> free r s.
Proof.
  intros Hf k Hk. specialize (Hf (length w + k)).
  rewrite skipn_app in Hf. rewrite skipn_all2 in Hf by lia.
  replace (length w + k - length w) with k in Hf by lia. simpl in Hf.
  apply Hf. rewrite length_app. lia.
Qed.

Lemma not_occurs_free r s :
  anchor_free r = true -> occursb r s = false -> free r s.
Proof.
  intros Haf Hno k Hk prev n Hm.
  assert (occursb r s = true); [|congruence].
  apply occursb_spec. exists k, n. split; auto.
  eapply matches_local; eauto. rewrite advance_snd. auto.
Qed.

(** No match of a rule that rejects the star runs across a star. *)
Lemma free_app_star r u v :
  anchor_free r = true -> accepts r star_char = false ->
  free r u -> free r v -> free r (u ++ star_char :: v).
Proof.
  intros Haf Hst Hu Hv k Hk prev n Hm.
  destruct (le_lt_dec k (length u)) as [Hle|Hgt].
  - rewrite skipn_app in Hm. replace (k - length u) with 0 in Hm by lia. simpl in Hm.
    destruct (le_lt_dec n (length (skipn k u))) as [Hn|Hn].
    + apply (Hu k Hle prev n). eapply matches_local; eauto.
      rewrite firstn_app. replace (n - length (skipn k u)) with 0 by lia.
      simpl. rewrite app_nil_r. auto.
    + assert (Hin : In star_char (firstn n (skipn k u ++ star_char :: v))).
      { rewrite firstn_app. apply in_app_iff. right.
        destruct (n - length (skipn k u)) eqn:E; [lia|]. simpl. auto. }
      pose proof (matches_accepts _ _ _ _ Hm _ Hin). congruence.
  - rewrite skipn_app in Hm. rewrite skipn_all2 in Hm by lia. simpl in Hm.
    destruct (k - length u) as [|j] eqn:E; [lia|]. simpl in Hm.
    apply (Hv j) in Hm; auto. rewrite length_app in Hk. simpl in Hk. lia.
Qed.

Lemma marker_shape :
  marker = [] ++ star_char :: [] ++ star_char :: [] ++ star_char ::
           marker_word ++ star_char :: [] ++ star_char :: [] ++ [star_char].
Proof. reflexivity. Qed.

Lemma free_marker r o : tame r = true -> free r o -> free r (marker ++ o).
Proof.
  intros Ht Ho. destruct (tame_parts r Ht) as (Haf & Hnn & Hst & Hw).
  pose proof (free_nil r Hnn) as Hnil.
  pose proof (not_occurs_free r marker_word Haf Hw) as Hword.
  change (marker ++ o) with
    ([] ++ star_char :: [] ++ star_char :: [] ++ star_char ::
     marker_word ++ star_char :: [] ++ star_char :: [] ++ star_char :: o).
  repeat (apply free_app_star; auto).
Qed.

(** Up to the first star, the output of a pass is its input. *)
Lemma edits_keep_prefix ok s out :
  edits ok marker s out ->
  forall n, n <= length out -> ~ In star_char (firstn n out) ->
  firstn n out = firstn n s.
Proof.
  induction 1; intros n Hn Hstar.
  - auto.
  - destruct n as [|n]; simpl in *; auto. f_equal. apply IHedits; [lia|tauto].
  - destruct n as [|n]; [destruct (w ++ s); reflexivity|].
    exfalso. apply Hstar. simpl. left. reflexivity.
Qed.

Lemma free_edits r s out :
  tame r = true -> edits (quiet r) marker s out -> free r out.
Proof.
  intros Ht. destruct (tame_parts r Ht) as (Haf & Hnn & Hst & Hw).
  induction 1.
  - apply free_nil; auto.
  - apply free_cons; auto. intros prev n Hm.
    apply (H prev n). eapply matches_local; eauto.
    apply (edits_keep_prefix (quiet r) (c :: s) (c :: out)).
    + constructor; auto.
    + eapply matches_length; eauto.
    + intros Hin. pose proof (matches_accepts _ _ _ _ Hm _ Hin). congruence.
  - apply free_marker; auto.
Qed.

Lemma edits_weaken r m s out :
  edits (fun _ => True) m s out -> free r s -> edits (quiet r) m s out.
Proof.
  induction 1; intros Hf.
  - constructor.
  - constructor.
    + apply (Hf 0). lia.
    + apply IHedits. eapply free_tail; eauto.
  - constructor. apply IHedits. eapply free_app_r; eauto.
Qed.

(** After its own pass a tame rule matches nowhere, and no later pass
    brings a match back. *)
Lemma pass_free_self r s : tame r = true -> free r (sub r marker s).
Proof.
  intros Ht. destruct (tame_parts r Ht) as (Haf & Hnn & _).
  apply (free_edits r s); auto. apply sub_edits; auto.
Qed.

Lemma pass_free_other r r' s :
  tame r = true -> free r s -> free r (sub r' marker s).
Proof.
  intros Ht Hf. apply (free_edits r s); auto.
  apply edits_weaken; auto. apply sub_edits_any.
Qed.

Lemma redact_with_free r ps : forall s,
  tame r = true -> free r s -> free r (redact_with ps s).
Proof.
  unfold redact_with. induction ps as [|p ps IH]; intros s Ht Hf; simpl; auto.
  apply IH; auto. apply pass_free_other; auto.
Qed.

Lemma redact_with_free_in r ps : forall s,
  tame r = true -> In r ps -> free r (redact_with ps s).
Proof.
  induction ps as [|p ps IH]; intros s Ht Hin; [destruct Hin|].
  change (redact_with (p :: ps) s) with (redact_with ps (sub p marker s)).
  destruct Hin as [->|Hin].
  - apply redact_with_free; auto. apply pass_free_self; auto.
  - apply IH; auto.
Qed.

Lemma redact_with_fix ps : forall s,
  (forall r, In r ps -> free r s) -> redact_with ps s = s.
Proof.
  induction ps as [|p ps IH]; intros s Hf; auto.
  change (redact_with (p :: ps) s) with (redact_with ps (sub p marker s)).
  rewrite sub_free by (apply Hf; left; auto).
  apply IH. intros r Hin. apply Hf. right; auto.
Qed.

(** ** The marker stays *)

Lemma edits_same_or_marked ok m s out :
  edits ok m s out -> out = s \/ infix m out.
Proof.
  induction 1.
  - left; auto.
  - destruct IHedits as [->|(a & z & ->)]; [left; auto|].
    right. exists (c :: a), z. auto.
  - right. exists [], out. auto.
Qed.

Lemma edits_prefix ok m : forall w t out,
  edits ok m (w ++ t) out ->
  (exists out', out = w ++ out' /\ edits ok m t out') \/ infix m out.
Proof.
  induction w as [|c w IH]; intros t out H.
  - left. exists out. auto.
  - simpl in H. inversion H; subst.
    + destruct (IH t out0 H4) as [(o & -> & Ho)|(a & z & ->)].
      * left. exists o. auto.
      * right. exists (c :: a), z. auto.
    + right. exists [], out0. auto.
Qed.

Lemma edits_keep_marker ok m s out :
  edits ok m s out -> infix m s -> infix m out.
Proof.
  intros H (a & z & ->).
  rewrite app_assoc in H.
  destruct (edits_prefix ok m (a ++ m) z out H) as [(o & -> & _)|Hi]; auto.
  exists a, o. rewrite app_assoc. auto.
Qed.

Lemma redact_with_keeps_marker ps : forall s,
  infix marker s -> infix marker (redact_with ps s).
Proof.
  induction ps as [|p ps IH]; intros s Hi; auto.
  change (redact_with (p :: ps) s) with (redact_with ps (sub p marker s)).
  apply IH. eapply edits_keep_marker; eauto. apply sub_edits_any.
Qed.

End MarkerFacts.

Module RedactionFacts.
Import Re CleanRepo Spec ReFacts SubFacts EditFacts PassFacts MarkerFacts.

(** Every rule of [clean_repo.py] but the URL-token rule is tame. *)
Lemma patterns_tame r :
  In r patterns -> r = p_url_token \/ tame r = true.
Proof.
  unfold patterns. simpl.
  intros H. repeat (destruct H as [<-|H]; [first [left; reflexivity | right; vm_compute; reflexivity]|]).
  destruct H.
Qed.

Lemma clean_blob_data bl :
  clean_blob bl = Blob (blob_id bl) (clean_message (data bl)).
Proof.
  unfold clean_blob, clean_message, redact_with. destruct bl as [i d]. simpl blob_id. simpl data.
  generalize patterns. intros ps. revert d.
  induction ps as [|p ps IH]; intros d; simpl; auto.
Qed.

Lemma run_not_free s : has_run hex 32 s -> ~ free p_hex s.
Proof.
  intros (w & (a & z & ->) & Hlen & Hall) Hf.
  apply (Hf (length a)) with (prev := None) (n := length w).
  - rewrite length_app. lia.
  - rewrite skipn_app. rewrite skipn_all2 by lia. replace (length a - length a) with 0 by lia.
    rewrite skipn_O. simpl. unfold p_hex, at_least. apply M_rep.
    + exact Hlen.
    + exact I.
    + rewrite length_app. lia.
    + rewrite firstn_app. replace (length w - length w) with 0 by lia.
      rewrite firstn_all. simpl. rewrite app_nil_r. auto.
Qed.

Lemma clean_message_free_hex s : free p_hex (clean_message s).
Proof.
  apply redact_with_free_in; [vm_compute; reflexivity|].
  unfold patterns. simpl. auto.
Qed.

Lemma clean_message_marked s : has_run hex 32 s -> infix marker (clean_message s).
Proof.
  intros Hrun. unfold clean_message, patterns.
  change (redact_with (p_jwt :: p_hex :: ?ps) s)
    with (redact_with ps (sub p_hex marker (sub p_jwt marker s))).
  destruct (edits_same_or_marked _ _ _ _ (sub_edits_any p_jwt marker s)) as [E|Hi].
  - rewrite E.
    destruct (edits_same_or_marked _ _ _ _ (sub_edits_any p_hex marker s)) as [E2|Hi].
    + exfalso. apply (run_not_free s Hrun). rewrite <- E2.
      apply pass_free_self. vm_compute; reflexivity.
    + apply redact_with_keeps_marker; auto.
  - apply redact_with_keeps_marker.
    eapply edits_keep_marker; [apply sub_edits_any | auto].
Qed.

End RedactionFacts.

Module CallbackFacts.
Import Re CleanRepo Spec.

Lemma assign_all_patterns ref ps : forall st,
  g_patterns (fold_left (fun st p => assign_data ref p st) ps st) = g_patterns st.
Proof.
  induction ps as [|p ps IH]; intros st; simpl; auto. rewrite IH. reflexivity.
Qed.

Lemma assign_all_other ref other ps : forall st,
  other <> ref ->
  objects (fold_left (fun st p => assign_data ref p st) ps st) !! other
  = objects st !! other.
Proof.
  induction ps as [|p ps IH]; intros st Hne; simpl; auto.
  rewrite IH by auto. simpl. apply lookup_alter_ne. auto.
Qed.

Lemma assign_all_self ref ps : forall st bl,
  objects st !! ref = Some bl ->
  objects (fold_left (fun st p => assign_data ref p st) ps st) !! ref
  = Some (Blob (blob_id bl) (redact_with ps (data bl))).
Proof.
  induction ps as [|p ps IH]; intros st bl Hl; simpl.
  - rewrite Hl. destruct bl; reflexivity.
  - rewrite (IH _ (Blob (blob_id bl) (sub p marker (data bl)))).
    + reflexivity.
    + simpl. rewrite lookup_alter_eq. rewrite Hl. reflexivity.
Qed.

Lemma invoke_patterns c st : g_patterns (invoke c st) = g_patterns st.
Proof.
  destruct c; simpl; auto. unfold run_clean_blob. apply assign_all_patterns.
Qed.

Lemma run_calls_patterns cs : forall st, g_patterns (run_calls cs st) = g_patterns st.
Proof.
  unfold run_calls. induction cs as [|c cs IH]; intros st; simpl; auto.
  rewrite IH. apply invoke_patterns.
Qed.

End CallbackFacts.

Module ProcFacts.
Import Text Proc.

(** One step of each primitive. *)
Lemma after_after st ev1 ev2 : after (after st ev1) ev2 = after st (ev1 ++ ev2).
Proof. unfold after. simpl. rewrite <- app_assoc. reflexivity. Qed.

Lemma after_nil st : after st [] = st.
Proof. unfold after. rewrite app_nil_r. destruct st; reflexivity. Qed.

Lemma bind_run {A B} (m : M A) (k : A -> M B) w st :
  (m ≫= k) w st =
  match m w st with
  | (Ok a, st') => k a w st'
  | (Raise e, st') => (Raise e, st')
  end.
Proof. reflexivity. Qed.

Lemma bind_ok {A B} (m : M A) (k : A -> M B) w st a st' :
  m w st = (Ok a, st') -> (m ≫= k) w st = k a w st'.
Proof. intros H. rewrite bind_run, H. reflexivity. Qed.

Lemma bind_raise {A B} (m : M A) (k : A -> M B) w st e st' :
  m w st = (Raise e, st') -> (m ≫= k) w st = (Raise e, st').
Proof. intros H. rewrite bind_run, H. reflexivity. Qed.

Lemma print_run s w st : print s w st = (Ok tt, after st [Write (s +:+ nl)]).
Proof. reflexivity. Qed.

Lemma print_no_end_run s w st : print_no_end s w st = (Ok tt, after st [Write s]).
Proof. reflexivity. Qed.

Lemma check_output_run argv w st :
  check_output argv w st =
  (match spawn w argv None with
   | SpawnFailed => Raise OSError
   | Exited _ Undecodable => Raise UnicodeDecodeError
   | Exited status (Decoded text) =>
       if (status =? 0)%Z then Ok text else Raise CalledProcessError
   end, after st [CheckOutput argv]).
Proof.
  cbv [check_output mbind M_bind bind emit spawned after].
  destruct (spawn w argv None) as [status [text|]|]; try reflexivity.
  destruct (status =? 0)%Z; reflexivity.
Qed.

Lemma run_run argv stdin w st :
  run argv stdin w st =
  (match spawn w argv stdin with
   | SpawnFailed => Raise OSError
   | Exited status _ => Ok status
   end, after st [Run argv stdin]).
Proof.
  cbv [run mbind M_bind bind emit spawned after].
  destruct (spawn w argv stdin) as [status out|]; reflexivity.
Qed.

Lemma makedirs_run path w st :
  makedirs path w st =
  (if makedirs_ok w path then Ok tt else Raise OSError, after st [MakeDirs path]).
Proof.
  cbv [makedirs mbind M_bind bind emit made after].
  destruct (makedirs_ok w path); reflexivity.
Qed.

Lemma input_run prompt w st :
  input prompt w st =
  match unread st with
  | line :: rest => (Ok line, State (trace st ++ [Input prompt]) rest)
  | [] => (Raise EOFError, after st [Input prompt])
  end.
Proof.
  cbv [input mbind M_bind bind emit read_line after trace unread].
  destruct st as [tr un]. destruct un; reflexivity.
Qed.

(** The trace only grows. *)
Lemma extends_refl st : extends st st.
Proof. exists []. rewrite app_nil_r. reflexivity. Qed.

Lemma extends_trans st1 st2 st3 : extends st1 st2 -> extends st2 st3 -> extends st1 st3.
Proof.
  intros [e1 H1] [e2 H2]. exists (e1 ++ e2). rewrite H2, H1, app_assoc. reflexivity.
Qed.

Lemma growing_ret {A} (a : A) : growing (mret a).
Proof. intros w st. apply extends_refl. Qed.

Lemma growing_bind {A B} (m : M A) (k : A -> M B) :
  growing m -> (forall a, growing (k a)) -> growing (m ≫= k).
Proof.
  intros Hm Hk w st. rewrite bind_run. specialize (Hm w st).
  destruct (m w st) as [[a|e] st']; simpl in *; auto.
  eapply extends_trans; [exact Hm | apply Hk].
Qed.

Lemma growing_run argv stdin : growing (run argv stdin).
Proof.
  intros w st. rewrite run_run. simpl. eexists; reflexivity.
Qed.

Lemma growing_print s : growing (print s).
Proof. intros w st. rewrite print_run. simpl. eexists; reflexivity. Qed.

Lemma growing_for_each {A} (xs : list A) (body : A -> M unit) :
  (forall x, growing (body x)) -> growing (for_each xs body).
Proof.
  intros Hb. induction xs as [|x xs IH]; simpl.
  - apply (growing_ret tt).
  - apply growing_bind; auto.
Qed.

End ProcFacts.

Module ScanFacts.
Import Re Text Proc GitHistoryCleaner Spec ReFacts SubFacts ProcFacts.

Lemma add_all_same (x : string) (l : list (nat * nat)) (found : gset string) :
  fold_left (fun found (_ : nat * nat) => {[ x ]} ∪ found) l found
  = match l with [] => found | _ :: _ => {[ x ]} ∪ found end.
Proof.
  revert found. induction l as [|a l IH]; intros found; simpl; auto.
  rewrite IH. destruct l; auto.
  apply set_eq. intros y. rewrite !elem_of_union. tauto.
Qed.

Lemma add_matches_elem c d found p x :
  x ∈ add_matches c d found p <->
  x ∈ found \/ (occurs (re p) (list_ascii_of_string d) /\ x = finding c (source p)).
Proof.
  unfold add_matches. rewrite add_all_same.
  destruct (finditer (re p) (list_ascii_of_string d)) as [|a l] eqn:E.
  - split; auto. intros [H|[H _]]; auto.
    apply finditer_nonempty_iff in H. congruence.
  - assert (occurs (re p) (list_ascii_of_string d)).
    { apply finditer_nonempty_iff. congruence. }
    rewrite elem_of_union, elem_of_singleton. tauto.
Qed.

Lemma scan_fold_elem c d x ps : forall found,
  x ∈ fold_left (add_matches c d) ps found <->
  x ∈ found \/ exists p, In p ps /\ occurs (re p) (list_ascii_of_string d)
                        /\ x = finding c (source p).
Proof.
  induction ps as [|p ps IH]; intros found; simpl.
  - split; auto. intros [H|(p & [] & _)]; auto.
  - rewrite IH, add_matches_elem. split.
    + intros [[H|[H1 H2]]|(q & Hq & H)]; auto.
      * right. exists p. auto.
      * right. exists q. tauto.
    + intros [H|(q & [<-|Hq] & H)]; auto. right. exists q. auto.
Qed.

Lemma scan_diff_elem c d x :
  x ∈ scan_diff c d <->
  exists p, In p sensitive_patterns /\ occurs (re p) (list_ascii_of_string d)
            /\ x = finding c (source p).
Proof.
  unfold scan_diff. rewrite scan_fold_elem. split; [|auto].
  intros [H|H]; auto. apply not_elem_of_empty in H. destruct H.
Qed.

Lemma append_inj_r s a b' : s +:+ a = s +:+ b' -> a = b'.
Proof.
  induction s as [|ch s IH]; simpl; auto. intros H. injection H. auto.
Qed.

Lemma finding_inj c p q : finding c p = finding c q -> p = q.
Proof.
  unfold finding. intros H.
  repeat (apply append_inj_r in H). exact H.
Qed.

Lemma sources_distinct : NoDup (map source sensitive_patterns).
Proof. apply (bool_decide_unpack _). vm_compute. reflexivity. Qed.

End ScanFacts.

Module HistoryFacts.
Import Re Text Proc GitHistoryCleaner Spec ReFacts SubFacts ProcFacts ScanFacts.

Lemma findings_distinct c f : forall ps,
  NoDup (map source ps) ->
  NoDup (map (fun p => finding c (source p)) (List.filter f ps)).
Proof.
  induction ps as [|p ps IH]; simpl; intros Hnd; [constructor|].
  apply NoDup_cons in Hnd. destruct Hnd as [Hnotin Hnd].
  destruct (f p); simpl; auto.
  apply NoDup_cons. split; auto.
  intros Hin. apply Hnotin. apply list_elem_of_In in Hin.
  apply in_map_iff in Hin. destruct Hin as (q & Hq & Hin).
  apply filter_In in Hin. destruct Hin as [Hin _].
  apply finding_inj in Hq. rewrite <- Hq.
  apply list_elem_of_In. apply in_map. auto.
Qed.

Lemma scan_diff_as_list c d :
  scan_diff c d =
  list_to_set (map (fun p => finding c (source p))
                   (List.filter (fun p => occursb (re p) (list_ascii_of_string d))
                                sensitive_patterns)).
Proof.
  apply set_eq. intros x. rewrite scan_diff_elem, elem_of_list_to_set, list_elem_of_In.
  rewrite in_map_iff. split.
  - intros (p & Hp & Ho & ->). exists p. split; auto.
    apply filter_In. split; auto. apply occursb_spec; auto.
  - intros (p & <- & Hin). apply filter_In in Hin. destruct Hin as [Hin Ho].
    exists p. split; auto. split; auto. apply occursb_spec; auto.
Qed.

Lemma scan_diff_size c d :
  size (scan_diff c d) =
  length (List.filter (fun p => occursb (re p) (list_ascii_of_string d))
                      sensitive_patterns).
Proof.
  rewrite scan_diff_as_list. rewrite size_list_to_set.
  - apply length_map.
  - apply findings_distinct. apply sources_distinct.
Qed.

Lemma scan_commit_run c w st :
  scan_commit c w st =
  match spawn w (show_argv c) None with
  | Exited status (Decoded diff) =>
      if (status =? 0)%Z
      then (Ok (scan_diff c diff), after st [CheckOutput (show_argv c)])
      else (Ok ∅, after st [CheckOutput (show_argv c);
                            Write ("Error scanning commit " +:+ c +:+ nl)])
  | Exited _ Undecodable => (Raise UnicodeDecodeError, after st [CheckOutput (show_argv c)])
  | SpawnFailed => (Raise OSError, after st [CheckOutput (show_argv c)])
  end.
Proof.
  unfold scan_commit, try_except. rewrite bind_run, check_output_run.
  fold (show_argv c).
  destruct (spawn w (show_argv c) None) as [status [diff|]|]; try reflexivity.
  destruct (status =? 0)%Z; try reflexivity.
  simpl. rewrite bind_run, print_run. simpl. rewrite after_after. reflexivity.
Qed.

Lemma walk_run w total : forall commits i acc st,
  (forall c, In c commits -> shown w c) ->
  for_fold (enumerate i commits) acc
    (fun (all_findings : list string) (ic : nat * string) =>
       findings ← scan_commit (snd ic);
       let all_findings :=
         if decide (findings = ∅) then all_findings
         else all_findings ++ elements findings in
       print_no_end (cr +:+ "Scanning commits: " +:+ str_of_nat (fst ic) +:+ "/"
                        +:+ str_of_nat total);;
       mret all_findings) w st
  = (Ok (acc ++ flat_map (report w) commits), after st (walk_events w i total commits)).
Proof.
  induction commits as [|c commits IH]; intros i acc st Hall.
  - simpl. rewrite app_nil_r, after_nil. reflexivity.
  - destruct (Hall c (or_introl eq_refl)) as (status & text & Hs).
    assert (Hrest : forall c0, In c0 commits -> shown w c0)
      by (intros; apply Hall; right; auto).
    assert (Hrep : report w c
                   = if (status =? 0)%Z then elements (scan_diff c text) else [])
      by (unfold report; rewrite Hs; reflexivity).
    assert (Hev : commit_events w i total c
                  = CheckOutput (show_argv c)
                    :: (if (status =? 0)%Z then []
                        else [Write ("Error scanning commit " +:+ c +:+ nl)])
                    ++ [Write (cr +:+ "Scanning commits: " +:+ str_of_nat i +:+ "/"
                                  +:+ str_of_nat total)])
      by (unfold commit_events; rewrite Hs; reflexivity).
    change (flat_map (report w) (c :: commits))
      with (report w c ++ flat_map (report w) commits).
    change (walk_events w i total (c :: commits))
      with (commit_events w i total c ++ walk_events w (S i) total commits).
    rewrite Hrep, Hev. clear Hrep Hev.
    simpl enumerate. simpl for_fold. rewrite !bind_run. simpl snd.
    rewrite scan_commit_run, Hs.
    destruct (status =? 0)%Z.
    + rewrite bind_run, print_no_end_run. simpl fst.
      change ((mret ?x : M (list string)) w ?s) with (Ok x, s).
      cbv beta iota. rewrite IH by exact Hrest.
      rewrite !after_after. f_equal.
      f_equal. rewrite app_assoc. f_equal.
      destruct (decide (scan_diff c text = ∅)) as [->|]; auto.
      rewrite elements_empty, app_nil_r. reflexivity.
    + rewrite bind_run, print_no_end_run. simpl fst.
      change ((mret ?x : M (list string)) w ?s) with (Ok x, s).
      cbv beta iota. rewrite IH by exact Hrest.
      rewrite !after_after. f_equal.
Qed.

End HistoryFacts.

Module RunFacts.
Import Re Text Proc GitHistoryCleaner Spec ReFacts SubFacts ProcFacts ScanFacts HistoryFacts.

Ltac step := rewrite bind_run; first [rewrite print_run | rewrite print_no_end_run]; cbv beta iota.

Lemma scan_history_run w st out :
  spawn w log_argv None = Exited 0 (Decoded out) ->
  (forall c, In c (splitlines out) -> shown w c) ->
  scan_history w st =
  (Ok (flat_map (report w) (splitlines out)),
   after st (scan_history_events w (splitlines out))).
Proof.
  intros Hlog Hall. unfold scan_history. step.
  rewrite bind_run, check_output_run. fold log_argv. rewrite Hlog. cbv beta iota.
  change ((0 =? 0)%Z) with true. cbv beta iota zeta.
  rewrite bind_run. rewrite (walk_run w (length (splitlines out))) by exact Hall.
  cbv beta iota. step.
  change ((mret ?x : M (list string)) w ?s) with (Ok x, s).
  rewrite !after_after. reflexivity.
Qed.

Lemma scan_history_log_failed w st status out :
  spawn w log_argv None = Exited status (Decoded out) -> status <> 0%Z ->
  scan_history w st =
  (Raise CalledProcessError,
   after st [Write ("Scanning Git history for sensitive data..." +:+ nl);
             CheckOutput log_argv]).
Proof.
  intros Hlog Hne. unfold scan_history. step.
  rewrite bind_run, check_output_run. fold log_argv. rewrite Hlog.
  apply Z.eqb_neq in Hne. rewrite Hne. rewrite after_after. reflexivity.
Qed.

Lemma print_all_run w : forall xs st,
  for_each xs print w st = (Ok tt, after st (map (fun x => Write (x +:+ nl)) xs)).
Proof.
  induction xs as [|x xs IH]; intros st; simpl.
  - rewrite after_nil. reflexivity.
  - step. rewrite IH, after_after. reflexivity.
Qed.

Lemma replace_all_run w :
  (forall argv stdin, spawn w argv stdin <> SpawnFailed) ->
  forall (ps : list rule) st,
  for_each ps
    (fun pattern =>
       run replace_text_argv
           (Some (source pattern +:+ "===>REMOVED_SENSITIVE_DATA" +:+ nl));;
       mret tt) w st
  = (Ok tt, after st (map (fun pattern =>
                             Run replace_text_argv
                                 (Some (source pattern +:+ "===>REMOVED_SENSITIVE_DATA" +:+ nl)))
                          ps)).
Proof.
  intros Hsp. induction ps as [|p ps IH]; intros st.
  - simpl. rewrite after_nil. reflexivity.
  - simpl for_each. rewrite !bind_run, run_run.
    destruct (spawn w replace_text_argv _) as [status o|] eqn:E; [|destruct (Hsp _ _ E)].
    cbv beta iota. change ((mret tt : M unit) w ?s) with (Ok tt, s). cbv beta iota.
    rewrite IH, after_after. reflexivity.
Qed.

Lemma clean_history_run w st stamp :
  spawn w date_argv None = Exited 0 (Decoded stamp) ->
  makedirs_ok w ("git_backup_" +:+ strip stamp) = true ->
  (forall argv stdin, spawn w argv stdin <> SpawnFailed) ->
  clean_history w st = (Ok tt, after st (clean_history_events stamp)).
Proof.
  intros Hdate Hmk Hsp. unfold clean_history. step.
  rewrite bind_run, check_output_run, Hdate. cbv beta iota.
  change ((0 =? 0)%Z) with true. cbv beta iota zeta.
  rewrite bind_run, makedirs_run, Hmk. cbv beta iota.
  rewrite bind_run, run_run.
  destruct (spawn w (bundle_argv _) None) as [s1 o1|] eqn:E1; [|destruct (Hsp _ _ E1)].
  cbv beta iota. step.
  rewrite bind_run, run_run.
  destruct (spawn w remove_files_argv None) as [s2 o2|] eqn:E2; [|destruct (Hsp _ _ E2)].
  cbv beta iota. step.
  rewrite (replace_all_run w Hsp). rewrite !after_after. reflexivity.
Qed.

End RunFacts.

Module CleanFacts.
Import Re Text Proc GitHistoryCleaner Spec ProcFacts ScanFacts HistoryFacts RunFacts.

Lemma guarded_order ev pre argv stdin post :
  guarded ev -> ev = pre ++ Run argv stdin :: post -> is_filter_repo argv = true ->
  exists dir, In (MakeDirs dir) pre /\ In (Run (bundle_argv dir) None) pre.
Proof.
  intros [Hno|(dir & rest & Hev)] Heq Hfr.
  - rewrite (Hno argv stdin) in Hfr; [discriminate|].
    rewrite Heq. apply in_app_iff. right. left. reflexivity.
  - rewrite Hev in Heq. exists dir.
    destruct pre as [|p1 [|p2 [|p3 [|p4 pre]]]]; simpl in Heq; try discriminate.
    + inversion Heq; subst. discriminate.
    + inversion Heq; subst. simpl. split; auto 6.
Qed.

Lemma clean_history_guarded w st :
  exists ev, trace (snd (clean_history w st)) = trace st ++ ev /\ guarded ev.
Proof.
  unfold clean_history. step.
  rewrite bind_run, check_output_run.
  assert (Hearly : forall (e : exn),
            exists ev,
              trace (snd (@Raise unit e,
                          after (after st [Write ("Creating backup of current state..." +:+ nl)])
                                [CheckOutput date_argv])) = trace st ++ ev /\ guarded ev).
  { intros e. eexists. split.
    - simpl. rewrite <- app_assoc. reflexivity.
    - left. intros argv stdin [H|[H|[]]]; discriminate. }
  destruct (spawn w date_argv None) as [status [stamp|]|]; try apply Hearly.
  destruct (status =? 0)%Z; try apply Hearly. cbv beta iota zeta.
  rewrite bind_run, makedirs_run.
  destruct (makedirs_ok w _).
  - cbv beta iota. rewrite bind_run, run_run. rewrite !after_after.
    destruct (spawn w (bundle_argv _) None) as [s1 o1|].
    + cbv beta iota.
      lazymatch goal with
      | |- context [snd (?m w (after st ?e))] =>
          assert (Hg : growing m)
      end.
      { apply growing_bind; [apply growing_print|]. intros _.
        apply growing_bind; [apply growing_run|]. intros _.
        apply growing_bind; [apply growing_print|]. intros _.
        apply growing_for_each. intros p.
        apply growing_bind; [apply growing_run|]. intros _. apply (growing_ret tt). }
      lazymatch goal with
      | |- context [snd (?m w (after st ?e))] =>
          destruct (Hg w (after st e)) as [ev' Hev']
      end.
      eexists. split.
      * rewrite Hev'. simpl. rewrite <- app_assoc. reflexivity.
      * right. eexists. eexists. simpl. reflexivity.
    + eexists. split; [simpl; reflexivity|].
      right. eexists. exists []. reflexivity.
  - eexists. split.
    + simpl. rewrite <- !app_assoc. reflexivity.
    + left. intros argv stdin [H|[H|[H|[]]]]; discriminate.
Qed.

Lemma clean_history_no_date w st :
  (forall stamp, spawn w date_argv None <> Exited 0 (Decoded stamp)) ->
  exists e, clean_history w st =
            (Raise e, after st [Write ("Creating backup of current state..." +:+ nl);
                                CheckOutput date_argv]).
Proof.
  intros Hno. unfold clean_history. step.
  rewrite bind_run, check_output_run. rewrite after_after.
  destruct (spawn w date_argv None) as [status [stamp|]|] eqn:E; try (eexists; reflexivity).
  destruct (status =? 0)%Z eqn:E0; try (eexists; reflexivity).
  apply Z.eqb_eq in E0. subst. destruct (Hno stamp eq_refl).
Qed.

Lemma clean_history_no_dir w st stamp :
  spawn w date_argv None = Exited 0 (Decoded stamp) ->
  makedirs_ok w ("git_backup_" +:+ strip stamp) = false ->
  clean_history w st =
  (Raise OSError, after st [Write ("Creating backup of current state..." +:+ nl);
                            CheckOutput date_argv;
                            MakeDirs ("git_backup_" +:+ strip stamp)]).
Proof.
  intros Hdate Hmk. unfold clean_history. step.
  rewrite bind_run, check_output_run, Hdate. cbv beta iota.
  change ((0 =? 0)%Z) with true. cbv beta iota zeta.
  rewrite bind_run, makedirs_run, Hmk. rewrite !after_after. reflexivity.
Qed.

End CleanFacts.

Module MainFacts.
Import Re Text Proc GitHistoryCleaner Spec ProcFacts ScanFacts HistoryFacts RunFacts.

Lemma unread_after st ev : unread (after st ev) = unread st.
Proof. reflexivity. Qed.

Lemma main_scan_only w r1 r2 rest out :
  typed w = r1 :: r2 :: rest ->
  String.eqb (lower r1) "yes" = true ->
  String.eqb (lower r2) "yes" = false ->
  spawn w log_argv None = Exited 0 (Decoded out) ->
  (forall c, In c (splitlines out) -> shown w c) ->
  fst (main w (start w)) = Ok tt.
Proof.
  intros Htyped Hyes Hno Hlog Hall. unfold main. do 7 step.
  rewrite !after_after. rewrite bind_run, input_run, unread_after.
  unfold start at 1. simpl unread. rewrite Htyped. cbv beta iota.
  rewrite Hyes. change (negb true) with false. cbv beta iota.
  rewrite bind_run, (scan_history_run w _ out Hlog Hall). cbv beta iota.
  destruct (flat_map (report w) (splitlines out)) as [|f fs].
  - rewrite print_run. reflexivity.
  - step. rewrite bind_run, print_all_run. cbv beta iota.
    rewrite bind_run, input_run. rewrite !unread_after. simpl unread. cbv beta iota.
    rewrite Hno. rewrite print_run. reflexivity.
Qed.

Lemma main_log_failed w r1 rest status out :
  typed w = r1 :: rest ->
  String.eqb (lower r1) "yes" = true ->
  spawn w log_argv None = Exited status (Decoded out) -> status <> 0%Z ->
  fst (main w (start w)) = Raise CalledProcessError.
Proof.
  intros Htyped Hyes Hlog Hne. unfold main. do 7 step.
  rewrite !after_after. rewrite bind_run, input_run, unread_after.
  unfold start at 1. simpl unread. rewrite Htyped. cbv beta iota.
  rewrite Hyes. change (negb true) with false. cbv beta iota.
  rewrite bind_run, (scan_history_log_failed w _ status out Hlog Hne). reflexivity.
Qed.

End MainFacts.

Module WalkFacts.
Import Text Proc GitHistoryCleaner.

Lemma walk_visits w total c : forall commits i,
  In c commits -> In (CheckOutput (show_argv c)) (walk_events w i total commits).
Proof.
  induction commits as [|c0 commits IH]; intros i Hin; [destruct Hin|].
  destruct Hin as [->|Hin]; simpl.
  - left. reflexivity.
  - right. apply in_app_iff. right. apply IH. exact Hin.
Qed.

Lemma walk_reports_error w total c : forall commits i,
  In c commits -> unreadable w c ->
  In (Write ("Error scanning commit " +:+ c +:+ nl)) (walk_events w i total commits).
Proof.
  intros commits i Hin (status & text & Hs & Hne). revert i Hin.
  induction commits as [|c0 commits IH]; intros i Hin; [destruct Hin|].
  destruct Hin as [->|Hin]; simpl.
  - right. rewrite Hs. apply Z.eqb_neq in Hne. rewrite Hne. simpl. left. reflexivity.
  - right. apply in_app_iff. right. apply IH. exact Hin.
Qed.

Lemma unreadable_report w c : unreadable w c -> report w c = [].
Proof.
  intros (status & text & Hs & Hne). unfold report. rewrite Hs.
  apply Z.eqb_neq in Hne. rewrite Hne. reflexivity.
Qed.

End WalkFacts.

(* ================================================================== *)
(** * Facts about white space, the trace of the scan and the questions *)
(* ================================================================== *)

Module CutFacts.
Import Re CleanRepo Spec ReFacts SubFacts EditFacts PassFacts MarkerFacts RedactionFacts.

Lemma flat_map_agree {A B} (f g : A -> list B) (l : list A) :
  (forall a, In a l -> f a = g a) -> flat_map f l = flat_map g l.
Proof.
  induction l as [|a l IH]; intros H; simpl; auto.
  rewrite (H a) by (left; auto). rewrite IH; auto. intros; apply H; right; auto.
Qed.

Lemma span_cut p c v : p c = false -> forall u hi, span p hi (u ++ c :: v) = span p hi u.
Proof.
  intros Hc. induction u as [|x u IH]; intros hi; simpl.
  - rewrite Hc. reflexivity.
  - destruct (p x); auto. destruct hi as [[|k]|]; auto.
Qed.

(** Without anchors the matches at a cursor depend on what follows it up to
    the first character that no class accepts, and on nothing else. *)
Lemma ends_cut r c v :
  anchor_free r = true -> accepts r c = false ->
  forall u prev prev', ends r prev (u ++ c :: v) = ends r prev' u.
Proof.
  induction r; simpl; intros Haf Hacc u prev prev'; try discriminate.
  - reflexivity.
  - destruct u as [|x u]; simpl; [rewrite Hacc|]; reflexivity.
  - rewrite span_cut; auto.
  - apply andb_true_iff in Haf. destruct Haf as [Ha1 Ha2].
    apply orb_false_iff in Hacc. destruct Hacc as [Hc1 Hc2].
    rewrite (IHr1 Ha1 Hc1 u prev prev').
    apply flat_map_agree. intros n1 Hin.
    apply ends_sound, matches_length in Hin.
    destruct (advance n1 prev (u ++ c :: v)) as [p1 s1] eqn:E1.
    destruct (advance n1 prev' u) as [p2 s2] eqn:E2.
    assert (Hs1 : s1 = skipn n1 u ++ c :: v).
    { change s1 with (snd (p1, s1)). rewrite <- E1, advance_snd, skipn_app.
      replace (n1 - length u) with 0 by lia. reflexivity. }
    assert (Hs2 : s2 = skipn n1 u).
    { change s2 with (snd (p2, s2)). rewrite <- E2, advance_snd. reflexivity. }
    rewrite Hs1, Hs2. rewrite (IHr2 Ha2 Hc2 (skipn n1 u) p1 p2). reflexivity.
  - apply andb_true_iff in Haf. destruct Haf as [Ha1 Ha2].
    apply orb_false_iff in Hacc. destruct Hacc as [Hc1 Hc2].
    rewrite (IHr1 Ha1 Hc1 u prev prev'), (IHr2 Ha2 Hc2 u prev prev'). reflexivity.
Qed.

Lemma ends_prev r :
  anchor_free r = true -> forall s prev prev', ends r prev s = ends r prev' s.
Proof.
  induction r; simpl; intros Haf s prev prev'; try discriminate; auto.
  - apply andb_true_iff in Haf. destruct Haf as [Ha1 Ha2].
    rewrite (IHr1 Ha1 s prev prev').
    apply flat_map_agree. intros n1 _.
    destruct (advance n1 prev s) as [p1 s1] eqn:E1.
    destruct (advance n1 prev' s) as [p2 s2] eqn:E2.
    assert (s1 = s2) as ->.
    { change s1 with (snd (p1, s1)). change s2 with (snd (p2, s2)).
      rewrite <- E1, <- E2, !advance_snd. reflexivity. }
    rewrite (IHr2 Ha2 s2 p1 p2). reflexivity.
  - apply andb_true_iff in Haf. destruct Haf as [Ha1 Ha2].
    rewrite (IHr1 Ha1 s prev prev'), (IHr2 Ha2 s prev prev'). reflexivity.
Qed.

Lemma sub_go_prev r m :
  anchor_free r = true ->
  forall L s prev prev', length s <= L -> sub_go r m prev s 0 = sub_go r m prev' s 0.
Proof.
  intros Haf. induction L as [|L IH]; intros s prev prev' HL; rewrite !sub_go_unfold;
    unfold match_here; rewrite (ends_prev r Haf s prev prev').
  - destruct s; [reflexivity | simpl in HL; lia].
  - destruct s as [|x s]; [reflexivity|]. reflexivity.
Qed.

Lemma sub_go_cut r m c v :
  anchor_free r = true -> nullable r = false -> accepts r c = false ->
  forall L u prev prev', length u <= L ->
  sub_go r m prev (u ++ c :: v) 0 = sub_go r m prev' u 0 ++ c :: sub_go r m None v 0.
Proof.
  intros Haf Hnn Hacc. induction L as [|L IH]; intros u prev prev' HL.
  - destruct u; [|simpl in HL; lia]. simpl app at 1.
    rewrite (sub_go_unfold r m prev (c :: v)), (sub_go_unfold r m prev' []).
    assert (Hm : match_here r prev (c :: v) false = match_here r prev' [] false).
    { unfold match_here.
      change (c :: v) with ([] ++ c :: v).
      rewrite (ends_cut r c v Haf Hacc [] prev prev'). reflexivity. }
    rewrite Hm. destruct (match_here r prev' [] false) as [n|] eqn:E.
    + apply match_here_some in E. pose proof (matches_length _ _ _ _ E) as Hl.
      simpl in Hl. assert (n = 0) by lia. subst.
      pose proof (nullable_sound _ _ _ _ E eq_refl). congruence.
    + simpl. f_equal. apply (sub_go_prev r m Haf (length v)). lia.
  - rewrite (sub_go_unfold r m prev (u ++ c :: v)), (sub_go_unfold r m prev' u).
    assert (Hm : match_here r prev (u ++ c :: v) false = match_here r prev' u false).
    { unfold match_here. rewrite (ends_cut r c v Haf Hacc u prev prev'). reflexivity. }
    rewrite Hm. destruct (match_here r prev' u false) as [[|n]|] eqn:E.
    + apply match_here_some in E. pose proof (nullable_sound _ _ _ _ E eq_refl). congruence.
    + apply match_here_some in E. pose proof (matches_length _ _ _ _ E) as Hl.
      destruct u as [|x u]; simpl in Hl; [lia|]. simpl app.
      rewrite (sub_go_skip r m n (u ++ c :: v)) by (rewrite length_app; simpl; lia).
      rewrite (sub_go_skip r m n u) by lia.
      rewrite skipn_app. replace (n - length u) with 0 by lia. rewrite skipn_O.
      rewrite (IH (skipn n u) _ (fst (advance n (Some x) u))).
      * rewrite app_assoc. reflexivity.
      * rewrite length_skipn. simpl in HL. lia.
    + destruct u as [|x u].
      * simpl. f_equal. apply (sub_go_prev r m Haf (length v)). lia.
      * simpl. f_equal. apply IH. simpl in HL. lia.
Qed.

End CutFacts.

Module WordFacts.
Import Re CleanRepo Spec Shapes ReFacts SubFacts EditFacts PassFacts MarkerFacts
       RedactionFacts CallbackFacts CutFacts.

Lemma free_not_occurs r s : free r s -> occursb r s = false.
Proof.
  intros Hf. destruct (occursb r s) eqn:E; auto.
  apply occursb_spec in E. destruct E as (k & n & Hk & Hm).
  rewrite advance_snd in Hm. exfalso. exact (Hf k Hk _ n Hm).
Qed.

Lemma splits_parts c r :
  splits_at c r = true ->
  anchor_free r = true /\ nullable r = false /\ accepts r c = false.
Proof.
  unfold splits_at. rewrite !andb_true_iff, !negb_true_iff. tauto.
Qed.

Lemma sub_cut r m c u v :
  splits_at c r = true -> sub r m (u ++ c :: v) = sub r m u ++ c :: sub r m v.
Proof.
  intros H. destruct (splits_parts c r H) as (Haf & Hnn & Hacc).
  apply (sub_go_cut r m c v Haf Hnn Hacc (length u)). lia.
Qed.

Lemma redact_with_cut c ps : forall u v,
  forallb (splits_at c) ps = true ->
  redact_with ps (u ++ c :: v) = redact_with ps u ++ c :: redact_with ps v.
Proof.
  induction ps as [|p ps IH]; intros u v H; auto.
  simpl in H. apply andb_true_iff in H. destruct H as [Hp Hps].
  change (redact_with (p :: ps) ?x) with (redact_with ps (sub p marker x)).
  rewrite sub_cut by exact Hp. apply IH. exact Hps.
Qed.

Lemma space_splits c : space c = true -> forallb (splits_at c) patterns = true.
Proof.
  destruct c as [[] [] [] [] [] [] [] []]; intros H; try discriminate H;
    vm_compute; reflexivity.
Qed.

Lemma clean_message_cut c u v :
  space c = true ->
  clean_message (u ++ c :: v) = clean_message u ++ c :: clean_message v.
Proof.
  intros H. apply redact_with_cut. apply space_splits. exact H.
Qed.

(** The store after [clean_blob] on [ref]. *)
Lemma assign_all_none ref ps : forall st,
  objects st !! ref = None ->
  objects (fold_left (fun st p => assign_data ref p st) ps st) !! ref = None.
Proof.
  induction ps as [|p ps IH]; intros st Hl; simpl; auto.
  apply IH. simpl. rewrite lookup_alter_eq, Hl. reflexivity.
Qed.

Lemma run_clean_blob_objects ref st :
  g_patterns st = patterns ->
  objects (run_clean_blob ref st) = alter clean_blob ref (objects st).
Proof.
  intros Hp. unfold run_clean_blob. apply map_eq. intros k.
  destruct (decide (k = ref)) as [->|Hne].
  - rewrite lookup_alter_eq. destruct (objects st !! ref) as [bl|] eqn:E.
    + rewrite (assign_all_self ref _ st bl E), Hp. simpl.
      rewrite clean_blob_data. reflexivity.
    + rewrite assign_all_none by exact E. reflexivity.
  - rewrite assign_all_other by exact Hne. rewrite lookup_alter_ne by auto. reflexivity.
Qed.

Lemma run_clean_blob_store ref st :
  g_patterns st = patterns ->
  run_clean_blob ref st = Store patterns (alter clean_blob ref (objects st)).
Proof.
  intros Hp. rewrite <- (run_clean_blob_objects ref st Hp).
  assert (Hg : g_patterns (run_clean_blob ref st) = patterns).
  { unfold run_clean_blob. rewrite assign_all_patterns. exact Hp. }
  destruct (run_clean_blob ref st) as [g o]. simpl in *. subst. reflexivity.
Qed.

Lemma iter_shift {A} (f : A -> A) n a : Nat.iter n f (f a) = f (Nat.iter n f a).
Proof. induction n; simpl; congruence. Qed.

Lemma run_calls_objects ref cs : forall st,
  g_patterns st = patterns ->
  objects (run_calls cs st) !! ref
  = Nat.iter (blob_calls ref cs) clean_blob <$> objects st !! ref.
Proof.
  induction cs as [|c cs IH]; intros st Hp.
  - simpl. destruct (objects st !! ref); reflexivity.
  - change (run_calls (c :: cs) st) with (run_calls cs (invoke c st)).
    rewrite IH by (rewrite invoke_patterns; exact Hp).
    destruct c as [m|r]; simpl; auto.
    rewrite run_clean_blob_objects by exact Hp.
    destruct (Nat.eqb_spec r ref) as [->|Hne].
    + rewrite lookup_alter_eq. destruct (objects st !! ref); simpl; auto.
      rewrite iter_shift. reflexivity.
    + rewrite lookup_alter_ne by auto. reflexivity.
Qed.

End WordFacts.

Module ConfinedFacts.
Import Re Text Proc GitHistoryCleaner Spec Scenarios Conduct ProcFacts ScanFacts
       HistoryFacts RunFacts.

Lemma confined_ret {A} allowed (a : A) : confined allowed (mret a).
Proof. intros w st. exists []. rewrite after_nil. auto. Qed.

Lemma confined_bind {A B} allowed (m : M A) (k : A -> M B) :
  confined allowed m -> (forall a, confined allowed (k a)) ->
  confined allowed (m ≫= k).
Proof.
  intros Hm Hk w st. rewrite bind_run. destruct (Hm w st) as (ev & Hs & Hall).
  destruct (m w st) as [[a|e] st']; simpl in Hs; subst.
  - destruct (Hk a w (after st ev)) as (ev' & Hs' & Hall').
    exists (ev ++ ev'). rewrite Hs', after_after, forallb_app, Hall, Hall'. auto.
  - exists ev. auto.
Qed.

Lemma confined_try {A} allowed (m : M A) caught (h : M A) :
  confined allowed m -> confined allowed h -> confined allowed (try_except m caught h).
Proof.
  intros Hm Hh w st. unfold try_except. destruct (Hm w st) as (ev & Hs & Hall).
  destruct (m w st) as [[a|e] st']; simpl in Hs; subst.
  - exists ev. auto.
  - destruct (caught e); [|exists ev; auto].
    destruct (Hh w (after st ev)) as (ev' & Hs' & Hall').
    exists (ev ++ ev'). rewrite Hs', after_after, forallb_app, Hall, Hall'. auto.
Qed.

Lemma confined_print allowed s :
  allowed (Write (s +:+ nl)) = true -> confined allowed (print s).
Proof.
  intros H w st. rewrite print_run. eexists. split; [reflexivity|]. simpl. rewrite H. auto.
Qed.

Lemma confined_print_no_end allowed s :
  allowed (Write s) = true -> confined allowed (print_no_end s).
Proof.
  intros H w st. rewrite print_no_end_run. eexists. split; [reflexivity|].
  simpl. rewrite H. auto.
Qed.

Lemma confined_check_output allowed argv :
  allowed (CheckOutput argv) = true -> confined allowed (check_output argv).
Proof.
  intros H w st. rewrite check_output_run. eexists. split; [reflexivity|].
  simpl. rewrite H. auto.
Qed.

Lemma confined_for_fold {A S} allowed (body : S -> A -> M S) :
  (forall acc x, confined allowed (body acc x)) ->
  forall xs acc, confined allowed (for_fold xs acc body).
Proof.
  intros Hb. induction xs as [|x xs IH]; intros acc; simpl.
  - apply confined_ret.
  - apply confined_bind; auto.
Qed.

Lemma confined_for_each {A} allowed (body : A -> M unit) :
  (forall x, confined allowed (body x)) ->
  forall xs, confined allowed (for_each xs body).
Proof.
  intros Hb. induction xs as [|x xs IH]; simpl.
  - apply (confined_ret allowed tt).
  - apply confined_bind; auto.
Qed.

Lemma scan_commit_confined c : confined reads_only (scan_commit c).
Proof.
  unfold scan_commit. apply confined_try.
  - apply confined_bind; [|intros; apply confined_ret].
    apply confined_check_output. reflexivity.
  - apply confined_bind; [|intros; apply confined_ret].
    apply confined_print. reflexivity.
Qed.

Lemma scan_history_confined : confined reads_only scan_history.
Proof.
  unfold scan_history.
  apply confined_bind; [apply confined_print; reflexivity|]. intros _.
  apply confined_bind; [apply confined_check_output; reflexivity|]. intros out.
  apply confined_bind.
  - apply confined_for_fold. intros acc ic.
    apply confined_bind; [apply scan_commit_confined|]. intros findings.
    apply confined_bind; [apply confined_print_no_end; reflexivity|]. intros _.
    apply confined_ret.
  - intros all. apply confined_bind; [apply confined_print; reflexivity|]. intros _.
    apply confined_ret.
Qed.

End ConfinedFacts.

Module WalkMore.
Import Re Text Proc GitHistoryCleaner Spec Scenarios Conduct ProcFacts ScanFacts
       HistoryFacts RunFacts ConfinedFacts.

Lemma enumerate_app {A} (xs ys : list A) : forall i,
  enumerate i (xs ++ ys) = enumerate i xs ++ enumerate (i + length xs) ys.
Proof.
  induction xs as [|x xs IH]; intros i; simpl.
  - rewrite Nat.add_0_r. reflexivity.
  - rewrite IH. replace (S i + length xs) with (i + S (length xs)) by lia. reflexivity.
Qed.

Lemma for_fold_app {A S} (body : S -> A -> M S) (ys : list A) w : forall xs acc st,
  for_fold (xs ++ ys) acc body w st =
  match for_fold xs acc body w st with
  | (Ok acc', st') => for_fold ys acc' body w st'
  | (Raise e, st') => (Raise e, st')
  end.
Proof.
  induction xs as [|x xs IH]; intros acc st; simpl.
  - reflexivity.
  - rewrite !bind_run. destruct (body acc x w st) as [[a|e] st']; auto.
Qed.

Lemma scan_commit_garbled w st c :
  garbled w c ->
  exists e, scan_commit c w st = (Raise e, after st [CheckOutput (show_argv c)])
            /\ e <> CalledProcessError.
Proof.
  intros [H|[status H]]; rewrite scan_commit_run, H; eexists; split;
    try reflexivity; discriminate.
Qed.

Lemma scan_history_aborts w st out pre c post :
  spawn w log_argv None = Exited 0 (Decoded out) ->
  splitlines out = pre ++ c :: post ->
  (forall c', In c' pre -> shown w c') ->
  garbled w c ->
  exists e,
    scan_history w st =
    (Raise e,
     after st ([Write ("Scanning Git history for sensitive data..." +:+ nl);
                CheckOutput log_argv]
               ++ walk_events w 1 (length (splitlines out)) pre
               ++ [CheckOutput (show_argv c)]))
    /\ e <> CalledProcessError.
Proof.
  intros Hlog Hsplit Hpre Hbad. unfold scan_history. step.
  rewrite bind_run, check_output_run. fold log_argv. rewrite Hlog. cbv beta iota.
  change ((0 =? 0)%Z) with true. cbv beta iota zeta.
  remember (length (splitlines out)) as total eqn:Htotal.
  rewrite bind_run. rewrite Hsplit. rewrite enumerate_app, for_fold_app.
  rewrite (walk_run w total) by exact Hpre.
  simpl enumerate. simpl for_fold. rewrite !bind_run. simpl snd.
  destruct (scan_commit_garbled w
              (after (after (after st [Write ("Scanning Git history for sensitive data..." +:+ nl)])
                            [CheckOutput log_argv])
                     (walk_events w 1 total pre)) c Hbad)
    as (e & He & Hne).
  rewrite He. exists e. split; [|exact Hne].
  rewrite !after_after. reflexivity.
Qed.

(** The commands of the walk. *)
Lemma commands_app ev1 ev2 : commands (ev1 ++ ev2) = commands ev1 ++ commands ev2.
Proof.
  induction ev1 as [|e ev1 IH]; simpl; auto. destruct e; simpl; rewrite ?IH; auto.
Qed.

Lemma commands_walk w total : forall commits i,
  commands (walk_events w i total commits) = map show_argv commits.
Proof.
  induction commits as [|c commits IH]; intros i; simpl; auto.
  rewrite commands_app, IH. f_equal.
  destruct (spawn w (show_argv c) None) as [status [text|]|]; simpl; auto.
  destruct (status =? 0)%Z; reflexivity.
Qed.

Lemma commands_scan w commits :
  commands (scan_history_events w commits) = log_argv :: map show_argv commits.
Proof.
  unfold scan_history_events. simpl. rewrite commands_app, commands_walk. simpl.
  rewrite app_nil_r. reflexivity.
Qed.

(** The findings of a history. *)
Lemma report_elem w c x :
  In x (report w c) <->
  exists diff p, spawn w (show_argv c) None = Exited 0 (Decoded diff)
                 /\ In p sensitive_patterns
                 /\ occurs (re p) (list_ascii_of_string diff)
                 /\ x = finding c (source p).
Proof.
  unfold report. split.
  - destruct (spawn w (show_argv c) None) as [status [diff|]|]; try (intros []).
    destruct (status =? 0)%Z eqn:E; [|intros []].
    apply Z.eqb_eq in E. subst. intros Hin.
    apply list_elem_of_In, elem_of_elements, scan_diff_elem in Hin.
    destruct Hin as (p & Hp & Ho & ->). exists diff, p. auto.
  - intros (diff & p & Hs & Hp & Ho & ->). rewrite Hs. simpl.
    apply list_elem_of_In, elem_of_elements, scan_diff_elem. exists p. auto.
Qed.

End WalkMore.

Module ConsentFacts.
Import Re Text Proc GitHistoryCleaner Spec Scenarios Conduct ProcFacts ScanFacts
       HistoryFacts RunFacts CleanFacts MainFacts ConfinedFacts WalkMore.

Lemma reads_only_harmless ev e :
  forallb reads_only ev = true -> In e ev -> mutates e = false.
Proof.
  intros Hall Hin. rewrite forallb_forall in Hall. specialize (Hall e Hin).
  destruct e; simpl in *; auto; discriminate.
Qed.

Lemma writes_harmless (lines : list string) e :
  In e (map (fun f => Write (f +:+ nl)) lines) -> mutates e = false.
Proof.
  intros Hin. apply in_map_iff in Hin. destruct Hin as (f & <- & _). reflexivity.
Qed.

Lemma main_prefix w :
  main w (start w) =
  (response ← input (nl +:+ "Do you want to proceed? (yes/no): ");
   if negb (String.eqb (lower response) "yes") then
     print "Operation cancelled."
   else
     findings ← scan_history;
     match findings with
     | _ :: _ =>
         print (nl +:+ "Found sensitive data in the following commits:");;
         for_each findings print;;
         response ← input (nl +:+ "Do you want to clean the repository? (yes/no): ");
         if String.eqb (lower response) "yes" then
           clean_history;;
           print (nl +:+ "Repository cleaned! Please:");;
           print "1. Review the changes";;
           print "2. Force push to remote: git push origin --force --all";;
           print "3. Update all sensitive credentials that were exposed"
         else
           print "Cleaning cancelled."
     | [] =>
         print (nl +:+ "No sensitive data found in Git history.")
     end) w (State banner (typed w)).
Proof.
  unfold main. do 7 step. rewrite !after_after. reflexivity.
Qed.

Lemma main_declined w r rest :
  typed w = r :: rest -> lower r <> "yes" ->
  main w (start w) =
  (Ok tt, State (banner ++ [ask_proceed; Write ("Operation cancelled." +:+ nl)]) rest).
Proof.
  intros Ht Hno. rewrite main_prefix. rewrite bind_run, input_run. simpl unread.
  rewrite Ht. cbv beta iota. apply String.eqb_neq in Hno. rewrite Hno.
  change (negb false) with true. cbv beta iota. rewrite print_run.
  reflexivity.
Qed.

Lemma main_no_input w :
  typed w = [] ->
  main w (start w) = (Raise EOFError, State (banner ++ [ask_proceed]) []).
Proof.
  intros Ht. rewrite main_prefix. rewrite bind_run, input_run. simpl unread.
  rewrite Ht. reflexivity.
Qed.

End ConsentFacts.

Module ConsentMore.
Import Re Text Proc GitHistoryCleaner Spec Scenarios Conduct ProcFacts ScanFacts
       HistoryFacts RunFacts CleanFacts MainFacts ConfinedFacts WalkMore ConsentFacts.

Lemma banner_harmless e : In e (banner ++ [ask_proceed]) -> mutates e = false.
Proof.
  intros Hin. simpl in Hin.
  repeat (destruct Hin as [<-|Hin]; [reflexivity|]). destruct Hin.
Qed.

Lemma main_mutation_needs_consent w e :
  In e (trace (snd (main w (start w)))) -> mutates e = true ->
  exists r1 r2 rest f fs st',
    typed w = r1 :: r2 :: rest /\ lower r1 = "yes" /\ lower r2 = "yes"
    /\ scan_history w (State (banner ++ [ask_proceed]) (r2 :: rest)) = (Ok (f :: fs), st').
Proof.
  intros Hin Hmut. rewrite main_prefix in Hin.
  rewrite bind_run, input_run in Hin. simpl unread in Hin.
  destruct (typed w) as [|r1 rest1] eqn:Ht.
  { simpl in Hin. apply banner_harmless in Hin. congruence. }
  cbv beta iota in Hin. cbn [trace] in Hin. fold ask_proceed in Hin.
  destruct (String.eqb (lower r1) "yes") eqn:Hy1.
  2:{ change (negb false) with true in Hin. cbv beta iota in Hin.
      rewrite print_run in Hin. simpl in Hin.
      repeat (destruct Hin as [<-|Hin]; [discriminate|]). destruct Hin. }
  change (negb true) with false in Hin. cbv beta iota in Hin.
  rewrite bind_run in Hin.
  destruct (scan_history_confined w (State (banner ++ [ask_proceed]) rest1))
    as (ev & Hs & Hall).
  destruct (scan_history w (State (banner ++ [ask_proceed]) rest1))
    as [[findings|exn] st2] eqn:Esh; simpl in Hs; subst st2.
  2:{ cbn [snd trace after] in Hin. apply in_app_iff in Hin. destruct Hin as [Hin|Hin].
      - apply banner_harmless in Hin. congruence.
      - apply (reads_only_harmless ev e Hall) in Hin. congruence. }
  destruct findings as [|f fs].
  { rewrite print_run in Hin. rewrite after_after in Hin.
    cbn [snd trace after] in Hin.
    apply in_app_iff in Hin. destruct Hin as [Hin|Hin].
    - apply banner_harmless in Hin. congruence.
    - apply in_app_iff in Hin. destruct Hin as [Hin|[<-|[]]]; [|discriminate].
      apply (reads_only_harmless ev e Hall) in Hin. congruence. }
  rewrite bind_run, print_run in Hin. cbv beta iota in Hin.
  rewrite bind_run, print_all_run in Hin. cbv beta iota in Hin.
  rewrite bind_run, input_run in Hin. rewrite !after_after in Hin.
  cbn [unread after] in Hin.
  assert (Hquiet : forall tail,
            (forall x, In x tail -> mutates x = false) ->
            In e (trace (after (State (banner ++ [ask_proceed]) rest1)
                               (ev ++ [Write ((nl +:+ "Found sensitive data in the following commits:") +:+ nl)]
                                   ++ map (fun x => Write (x +:+ nl)) (f :: fs))) ++ tail) ->
            False).
  { intros tail Htail H. cbn [trace after] in H.
    apply in_app_iff in H. destruct H as [H|H]; [|apply Htail in H; congruence].
    apply in_app_iff in H. destruct H as [H|H]; [apply banner_harmless in H; congruence|].
    apply in_app_iff in H. destruct H as [H|H];
      [apply (reads_only_harmless ev e Hall) in H; congruence|].
    destruct H as [<-|H]; [discriminate|].
    apply writes_harmless in H. congruence. }
  destruct rest1 as [|r2 rest].
  { exfalso. apply (Hquiet [ask_clean]).
    - intros x [<-|[]]. reflexivity.
    - exact Hin. }
  cbv beta iota in Hin.
  destruct (String.eqb (lower r2) "yes") eqn:Hy2.
  2:{ exfalso. rewrite print_run in Hin. apply (Hquiet [ask_clean; Write ("Cleaning cancelled." +:+ nl)]).
      - intros x [<-|[<-|[]]]; reflexivity.
      - cbn [snd trace after] in *. rewrite <- app_assoc in Hin. exact Hin. }
  exists r1, r2, rest, f, fs, (after (State (banner ++ [ask_proceed]) (r2 :: rest)) ev).
  apply String.eqb_eq in Hy1, Hy2. auto.
Qed.

Lemma main_cleans w r1 r2 rest out stamp :
  typed w = r1 :: r2 :: rest ->
  lower r1 = "yes" -> lower r2 = "yes" ->
  spawn w log_argv None = Exited 0 (Decoded out) ->
  (forall c, In c (splitlines out) -> shown w c) ->
  flat_map (report w) (splitlines out) <> [] ->
  spawn w date_argv None = Exited 0 (Decoded stamp) ->
  makedirs_ok w ("git_backup_" +:+ strip stamp) = true ->
  (forall argv stdin, spawn w argv stdin <> SpawnFailed) ->
  main w (start w) =
  (Ok tt,
   State (banner ++ [ask_proceed]
          ++ scan_history_events w (splitlines out)
          ++ findings_lines (flat_map (report w) (splitlines out))
          ++ [ask_clean]
          ++ clean_history_events stamp
          ++ success_lines)
         rest).
Proof.
  intros Ht Hy1 Hy2 Hlog Hall Hne Hdate Hmk Hsp.
  apply String.eqb_eq in Hy1, Hy2.
  rewrite main_prefix. rewrite bind_run, input_run. simpl unread. rewrite Ht.
  cbv beta iota. rewrite Hy1. change (negb true) with false. cbv beta iota.
  rewrite bind_run, (scan_history_run w _ out Hlog Hall). cbv beta iota.
  destruct (flat_map (report w) (splitlines out)) as [|f fs] eqn:Ef; [congruence|].
  step. rewrite bind_run, print_all_run. cbv beta iota.
  rewrite bind_run, input_run. rewrite !after_after. simpl unread. cbv beta iota.
  rewrite Hy2. rewrite bind_run.
  rewrite (clean_history_run w _ stamp Hdate Hmk Hsp). cbv beta iota.
  do 3 step. rewrite print_run.
  rewrite !after_after. unfold after. cbn [trace unread]. f_equal. f_equal.
  unfold findings_lines, success_lines, ask_clean, scan_history_events.
  rewrite <- !app_assoc. reflexivity.
Qed.

Lemma clean_history_no_git w st stamp :
  spawn w date_argv None = Exited 0 (Decoded stamp) ->
  makedirs_ok w ("git_backup_" +:+ strip stamp) = true ->
  spawn w (bundle_argv ("git_backup_" +:+ strip stamp)) None = SpawnFailed ->
  clean_history w st =
  (Raise OSError, after st [Write ("Creating backup of current state..." +:+ nl);
                            CheckOutput date_argv;
                            MakeDirs ("git_backup_" +:+ strip stamp);
                            Run (bundle_argv ("git_backup_" +:+ strip stamp)) None]).
Proof.
  intros Hdate Hmk Hb. unfold clean_history. step.
  rewrite bind_run, check_output_run, Hdate. cbv beta iota.
  change ((0 =? 0)%Z) with true. cbv beta iota zeta.
  rewrite bind_run, makedirs_run, Hmk. cbv beta iota.
  rewrite bind_run, run_run, Hb. rewrite !after_after. reflexivity.
Qed.

End ConsentMore.

Module EnvRuleFacts.
Import Re Text Proc GitHistoryCleaner Spec Scenarios Conduct ReFacts SubFacts ScanFacts.

Lemma matches_seq r1 r2 prev s n1 n2 :
  matches r1 prev s n1 ->
  (forall p, matches r2 p (skipn n1 s) n2) ->
  matches (Seq r1 r2) prev s (n1 + n2).
Proof.
  intros H1 H2. constructor; auto. rewrite advance_snd. apply H2.
Qed.

Lemma matches_rep_all p lo prev w t :
  lo <= length w -> Forall (fun c => p c = true) w ->
  matches (Rep p lo None) prev (w ++ t) (length w).
Proof.
  intros Hlo Hall. constructor; auto; simpl; auto.
  - rewrite length_app. lia.
  - rewrite firstn_app. replace (length w - length w) with 0 by lia.
    rewrite firstn_all. simpl. rewrite app_nil_r. exact Hall.
Qed.

Lemma skipn_exact {A} (w t : list A) : skipn (length w) (w ++ t) = t.
Proof.
  rewrite skipn_app, skipn_all. replace (length w - length w) with 0 by lia. reflexivity.
Qed.

Lemma advance_fst_last u x t : forall prev,
  fst (advance (length (u ++ [x])) prev ((u ++ [x]) ++ t)) = Some x.
Proof.
  induction u as [|y u IH]; intros prev; simpl.
  - destruct t; reflexivity.
  - apply IH.
Qed.

Lemma env_rule_matches prev name value tail :
  at_bol prev = true ->
  name <> [] -> Forall (fun c => uword c = true) name ->
  value <> [] -> Forall (fun c => dot c = true) value ->
  at_eol tail = true ->
  matches (re (rule_at 13)) prev (name ++ "="%char :: value ++ tail)
          (0 + (0 + (0 + (length name + (1 + (length value + 0)))))).
Proof.
  intros Hbol Hn Hname Hv Hvalue Heol.
  change (re (rule_at 13)) with
    (Seq Bol (Seq (star uspace)
       (Seq (Alt (Seq (lits false "export") (plus uspace)) Eps)
          (Seq (plus uword) (Seq (Chr (lit "=")) (Seq (plus dot) Eol)))))).
  apply matches_seq; [constructor; exact Hbol|]. intros p1. rewrite skipn_O.
  apply matches_seq.
  { constructor; simpl; auto. lia. }
  intros p2. rewrite skipn_O.
  apply matches_seq; [apply M_alt_r; constructor|]. intros p3. rewrite skipn_O.
  apply matches_seq.
  { apply matches_rep_all; auto. destruct name; [congruence | simpl; lia]. }
  intros p4. rewrite skipn_exact.
  apply matches_seq; [constructor; reflexivity|]. intros p5.
  change (skipn 1 ("="%char :: value ++ tail)) with (value ++ tail).
  apply matches_seq.
  { apply matches_rep_all; auto. destruct value; [congruence | simpl; lia]. }
  intros p6. rewrite skipn_exact. constructor. exact Heol.
Qed.

Lemma env_rule_occurs pre name value tail :
  (pre = [] \/ exists pre', pre = pre' ++ [newline]) ->
  (tail = [] \/ exists t, tail = newline :: t) ->
  name <> [] -> Forall (fun c => uword c = true) name ->
  value <> [] -> Forall (fun c => dot c = true) value ->
  occurs (re (rule_at 13)) (pre ++ name ++ "="%char :: value ++ tail).
Proof.
  intros Hpre Htail Hn Hname Hv Hvalue.
  exists (length pre), (0 + (0 + (0 + (length name + (1 + (length value + 0)))))).
  split; [rewrite length_app; lia|].
  rewrite advance_snd, skipn_exact.
  apply env_rule_matches; auto.
  - destruct Hpre as [->|(pre' & ->)]; [reflexivity|].
    rewrite advance_fst_last. reflexivity.
  - destruct Htail as [->|(t & ->)]; reflexivity.
Qed.

End EnvRuleFacts.

Module HexRunFacts.
Import Re CleanRepo Spec ReFacts SubFacts PassFacts.

(** ** A run of hexadecimal characters on its own *)

Lemma span_full p : forall s, Forall (fun c => p c = true) s -> span p None s = length s.
Proof.
  induction s as [|c s IH]; intros H; simpl; auto.
  apply Forall_cons in H. destruct H as [Hc Hs]. rewrite Hc, IH; auto.
Qed.

Lemma countdown_head n lo : lo <= n -> head (countdown n lo) = Some n.
Proof.
  intros H. destruct n as [|n]; simpl.
  - destruct lo; [reflexivity | lia].
  - destruct (S n <? lo) eqn:E; [apply Nat.ltb_lt in E; lia | reflexivity].
Qed.

Lemma sub_hex_run (run : bytes) :
  32 <= length run -> Forall (fun c => hex c = true) run ->
  sub p_hex marker run = marker.
Proof.
  intros Hlen Hall. unfold sub. rewrite sub_go_unfold.
  assert (Hm : match_here p_hex None run false = Some (length run)).
  { unfold match_here, p_hex, at_least. simpl ends.
    rewrite span_full by exact Hall. apply countdown_head. exact Hlen. }
  rewrite Hm. destruct run as [|c run]; simpl in Hlen; [lia|].
  simpl length. cbv iota.
  rewrite sub_go_skip by lia. rewrite skipn_all.
  rewrite sub_go_unfold. unfold match_here, p_hex, at_least. simpl.
  reflexivity.
Qed.

Lemma jwt_needs_a_y prev s n :
  matches p_jwt prev s n -> exists c rest, s = c :: "y"%char :: rest.
Proof.
  unfold p_jwt. simpl seqs. unfold lits. simpl seqs.
  intros H. inversion H as [| | |r1 r2 p0 s0 n1 n2 H1 H2| | | |]; subst. clear H H2.
  inversion H1 as [| | |r1 r2 p0 s0 m1 m2 He Hyj| | | |]; subst. clear H1.
  inversion He as [|p p0 c s0 Hc| | | | | |]; subst. clear He.
  simpl in Hyj.
  inversion Hyj as [| | |r1 r2 p0 s1 k1 k2 Hy Hj| | | |]; subst. clear Hyj Hj.
  inversion Hy as [|p p0 c' s1 Hc'| | | | | |]; subst.
  unfold lit in Hc'. apply Ascii.eqb_eq in Hc'. subst. eauto.
Qed.

Lemma hex_run_no_jwt (run : bytes) :
  Forall (fun c => hex c = true) run -> free p_jwt run.
Proof.
  intros Hall k Hk prev n Hm.
  destruct (jwt_needs_a_y _ _ _ Hm) as (c & rest & Hs).
  assert (Hy : hex "y"%char = true).
  { assert (Hd : Forall (fun c => hex c = true) (skipn k run)) by (apply Forall_drop; exact Hall).
    rewrite Hs in Hd. apply Forall_cons in Hd. destruct Hd as [_ Hd].
    apply Forall_cons in Hd. tauto. }
  vm_compute in Hy. discriminate.
Qed.

Lemma clean_message_hex_run (run : bytes) :
  32 <= length run -> Forall (fun c => hex c = true) run ->
  clean_message run = marker.
Proof.
  intros Hlen Hall. unfold clean_message, patterns.
  change (redact_with (p_jwt :: p_hex :: ?ps) run)
    with (redact_with ps (sub p_hex marker (sub p_jwt marker run))).
  rewrite (sub_free p_jwt marker run) by (apply hex_run_no_jwt; exact Hall).
  rewrite sub_hex_run by assumption.
  vm_compute. reflexivity.
Qed.

End HexRunFacts.

Module PassingFacts.
Import Re Text Proc GitHistoryCleaner Spec Scenarios Conduct Cases ProcFacts ScanFacts
       HistoryFacts RunFacts ConfinedFacts WalkMore WalkFacts.

Lemma walk_body_confined total acc ic : confined reads_only (walk_body total acc ic).
Proof.
  unfold walk_body.
  apply confined_bind; [apply scan_commit_confined|]. intros findings.
  apply confined_bind; [apply confined_print_no_end; reflexivity|]. intros _.
  apply confined_ret.
Qed.

(** The walk begins with [git show] on its first commit. *)
Lemma walk_first w total next post j acc st :
  exists tail,
    snd (for_fold (enumerate j (next :: post)) acc (walk_body total) w st)
    = after st (CheckOutput (show_argv next) :: tail).
Proof.
  simpl enumerate. simpl for_fold. rewrite bind_run. unfold walk_body at 1.
  rewrite bind_run. simpl snd. rewrite scan_commit_run.
  assert (Hrest : forall acc' st', exists ev,
            snd (for_fold (enumerate (S j) post) acc' (walk_body total) w st') = after st' ev).
  { intros acc' st'.
    destruct (confined_for_fold reads_only (walk_body total) (walk_body_confined total)
                (enumerate (S j) post) acc' w st') as (ev & Hs & _).
    exists ev. exact Hs. }
  destruct (spawn w (show_argv next) None) as [status [diff|]|];
    [destruct (status =? 0)%Z| |].
  - rewrite bind_run, print_no_end_run. simpl fst.
    change ((mret ?x : M (list string)) w ?s) with (Ok x, s). cbv beta iota.
    match goal with |- context [for_fold _ ?a _ w ?s] => destruct (Hrest a s) as (ev & ->) end.
    rewrite !after_after. eexists. reflexivity.
  - rewrite bind_run, print_no_end_run. simpl fst.
    change ((mret ?x : M (list string)) w ?s) with (Ok x, s). cbv beta iota.
    match goal with |- context [for_fold _ ?a _ w ?s] => destruct (Hrest a s) as (ev & ->) end.
    rewrite !after_after. eexists. reflexivity.
  - eexists. reflexivity.
  - eexists. reflexivity.
Qed.

Lemma walk_from w total post j acc st :
  exists tail,
    snd (for_fold (enumerate j post) acc (walk_body total) w st) = after st tail
    /\ forall next post', post = next :: post' ->
         exists tail', tail = CheckOutput (show_argv next) :: tail'.
Proof.
  destruct post as [|next post].
  - exists []. simpl. rewrite after_nil. split; [reflexivity|]. intros ? ? H. discriminate H.
  - destruct (walk_first w total next post j acc st) as (tail & Ht).
    exists (CheckOutput (show_argv next) :: tail). split; [exact Ht|].
    intros n p' H. injection H as <- <-. eauto.
Qed.

Lemma walk_events_app w total ys : forall xs i,
  walk_events w i total (xs ++ ys)
  = walk_events w i total xs ++ walk_events w (i + length xs) total ys.
Proof.
  induction xs as [|x xs IH]; intros i.
  - simpl. rewrite Nat.add_0_r. reflexivity.
  - change (walk_events w i total ((x :: xs) ++ ys))
      with (commit_events w i total x ++ walk_events w (S i) total (xs ++ ys)).
    change (walk_events w i total (x :: xs))
      with (commit_events w i total x ++ walk_events w (S i) total xs).
    rewrite IH, <- app_assoc. simpl length.
    replace (S i + length xs) with (i + S (length xs)) by lia. reflexivity.
Qed.

Lemma unreadable_events w i total c :
  unreadable w c ->
  commit_events w i total c
  = [CheckOutput (show_argv c); Write ("Error scanning commit " +:+ c +:+ nl);
     progress i total].
Proof.
  intros (status & text & Hs & Hne). unfold commit_events. rewrite Hs.
  apply Z.eqb_neq in Hne. rewrite Hne. reflexivity.
Qed.

Lemma unreadable_shown w c : unreadable w c -> shown w c.
Proof. intros (status & text & Hs & _). exists status, text. exact Hs. Qed.

Lemma scan_commit_unreadable w st c :
  unreadable w c ->
  scan_commit c w st
  = (Ok ∅, after st [CheckOutput (show_argv c);
                     Write ("Error scanning commit " +:+ c +:+ nl)]).
Proof.
  intros (status & text & Hs & Hne). rewrite scan_commit_run, Hs.
  apply Z.eqb_neq in Hne. rewrite Hne. reflexivity.
Qed.

(** The walk passes a commit on which [git show] failed. *)
Lemma scan_history_passes w st out pre c post :
  spawn w log_argv None = Exited 0 (Decoded out) ->
  splitlines out = pre ++ c :: post ->
  (forall c', In c' pre -> shown w c') ->
  unreadable w c ->
  exists tail,
    snd (scan_history w st)
    = after st ([Write ("Scanning Git history for sensitive data..." +:+ nl);
                 CheckOutput log_argv]
                ++ walk_events w 1 (length (splitlines out)) pre
                ++ [CheckOutput (show_argv c);
                    Write ("Error scanning commit " +:+ c +:+ nl);
                    progress (S (length pre)) (length (splitlines out))]
                ++ tail)
    /\ forall next post', post = next :: post' ->
         exists tail', tail = CheckOutput (show_argv next) :: tail'.
Proof.
  intros Hlog Hsplit Hpre Hbad. unfold scan_history. step.
  rewrite bind_run, check_output_run. fold log_argv. rewrite Hlog. cbv beta iota.
  change ((0 =? 0)%Z) with true. cbv beta iota zeta.
  remember (length (splitlines out)) as total eqn:Htotal.
  rewrite bind_run. rewrite Hsplit.
  change (pre ++ c :: post) with (pre ++ [c] ++ post). rewrite app_assoc.
  rewrite enumerate_app, for_fold_app.
  assert (Hall : forall c', In c' (pre ++ [c]) -> shown w c').
  { intros c' Hin. apply in_app_iff in Hin. destruct Hin as [Hin|[<-|[]]]; auto.
    apply unreadable_shown. exact Hbad. }
  assert (Hev : walk_events w 1 total (pre ++ [c])
                = walk_events w 1 total pre
                  ++ [CheckOutput (show_argv c);
                      Write ("Error scanning commit " +:+ c +:+ nl);
                      progress (S (length pre)) total]).
  { rewrite walk_events_app.
    change (walk_events w (1 + length pre) total [c])
      with (commit_events w (S (length pre)) total c ++ []).
    rewrite app_nil_r, (unreadable_events w _ total c Hbad). reflexivity. }
  rewrite (walk_run w total) by exact Hall. rewrite Hev.
  match goal with
  | |- context [for_fold (enumerate ?j post) ?acc ?body w ?s] =>
      change body with (walk_body total);
      destruct (walk_from w total post j acc s) as (tail0 & Ht & Hnext);
      destruct (for_fold (enumerate j post) acc (walk_body total) w s) as [[a|e] s'] eqn:Er
  end; simpl in Ht; subst s'.
  - cbv beta iota. step.
    change ((mret ?x : M (list string)) w ?s) with (Ok x, s). simpl snd.
    exists (tail0 ++ [Write (nl +:+ "Scan complete!" +:+ nl)]).
    split.
    + rewrite !after_after. f_equal. rewrite <- !app_assoc. reflexivity.
    + intros next post' E. destruct (Hnext next post' E) as (t & ->). simpl. eauto.
  - simpl snd. exists tail0. split.
    + rewrite !after_after. f_equal. rewrite <- !app_assoc. reflexivity.
    + exact Hnext.
Qed.

Lemma source_inj_on (ps : list rule) :
  NoDup (map source ps) ->
  forall p q, In p ps -> In q ps -> source p = source q -> p = q.
Proof.
  induction ps as [|r ps IH]; intros Hnd p q Hp Hq E; [destruct Hp|].
  simpl in Hnd. apply NoDup_cons in Hnd. destruct Hnd as [Hnotin Hnd].
  destruct Hp as [<-|Hp], Hq as [<-|Hq]; auto.
  - exfalso. apply Hnotin. rewrite E. apply list_elem_of_In. apply in_map. exact Hq.
  - exfalso. apply Hnotin. rewrite <- E. apply list_elem_of_In. apply in_map. exact Hp.
Qed.

End PassingFacts.

(* ================================================================== *)
(** * The properties of the specification *)
(* ================================================================== *)

Import Re CleanRepo Text Proc GitHistoryCleaner Spec Scenarios.
Import ReFacts SubFacts EditFacts PassFacts MarkerFacts RedactionFacts CallbackFacts
       ProcFacts ScanFacts HistoryFacts RunFacts CleanFacts MainFacts WalkFacts.
Import Conduct Cases WordFacts HexRunFacts PassingFacts.

(** ** C1: sensitive files are removed from every commit *)

(** C1 (defect of the code). [clean_history] hands the engine one single
    path operand, the thirteen names joined by spaces, after the option
    [--paths]; no name of [sensitive_files] is an operand of its own, and a
    history that adds, deletes and adds again the file [.env] keeps it in
    every tree. *)
Theorem C1_sensitive_files_remain :
  Engine.operands "--paths" remove_files_argv =
    [".env .env.local .env.development .env.production .env.staging credentials.json config.json secrets.json *.key *.pem *.pfx *.p12 *.keystore"]
  /\ Forall (fun f => ~ In f remove_files_argv) sensitive_files
  /\ Engine.rewrite_history remove_files_argv
       [[".env"; "README.md"]; ["README.md"]; [".env"; "src/app.py"]]
     = [[".env"; "README.md"]; ["README.md"]; [".env"; "src/app.py"]].
Proof.
  split; [reflexivity|]. split; [|reflexivity].
  unfold sensitive_files, remove_files_argv. simpl join.
  repeat (constructor; [intros H; simpl in H; intuition discriminate|]).
  constructor.
Qed.

(** ** C2: no rewrite without a verified backup *)

(** C2 (counterexample). When [git bundle create] fails with status 128,
    [clean_history] goes on: it returns normally and has run
    [git filter-repo] on the paths and on every pattern. *)
Lemma C2_rewrite_after_failed_backup :
  spawn bundle_fails (bundle_argv the_dir) None = Exited 128 (Decoded "")
  /\ clean_history bundle_fails (start bundle_fails)
     = (Ok tt, after (start bundle_fails) (clean_history_events (the_stamp +:+ nl)))
  /\ nth_error (clean_history_events (the_stamp +:+ nl)) 3
     = Some (Run (bundle_argv the_dir) None)
  /\ nth_error (clean_history_events (the_stamp +:+ nl)) 5
     = Some (Run remove_files_argv None).
Proof.
  split; [reflexivity|]. split; [vm_compute; reflexivity|]. split; reflexivity.
Qed.

(** C2 (amended). In every run of [clean_history], a [git filter-repo]
    command is only issued after the backup directory was created and
    [git bundle create] was issued for it; when [date] gives no time stamp or
    the directory cannot be created, the run stops with an exception before
    any [git] command. Nothing verifies the backup or looks at the exit
    status of the bundle command: whenever the commands can be started, all
    the steps are run, whatever their exit status. *)
Theorem C2_backup_is_issued_first (w : world) (st : state) :
  (forall pre argv stdin post,
     trace (snd (clean_history w st)) = trace st ++ pre ++ Run argv stdin :: post ->
     is_filter_repo argv = true ->
     exists dir, In (MakeDirs dir) pre /\ In (Run (bundle_argv dir) None) pre)
  /\ ((forall stamp, spawn w date_argv None <> Exited 0 (Decoded stamp)) ->
      exists e, clean_history w st =
                (Raise e, after st [Write ("Creating backup of current state..." +:+ nl);
                                    CheckOutput date_argv]))
  /\ (forall stamp,
        spawn w date_argv None = Exited 0 (Decoded stamp) ->
        makedirs_ok w ("git_backup_" +:+ strip stamp) = false ->
        clean_history w st =
        (Raise OSError, after st [Write ("Creating backup of current state..." +:+ nl);
                                  CheckOutput date_argv;
                                  MakeDirs ("git_backup_" +:+ strip stamp)]))
  /\ (forall stamp,
        spawn w date_argv None = Exited 0 (Decoded stamp) ->
        makedirs_ok w ("git_backup_" +:+ strip stamp) = true ->
        (forall argv stdin, spawn w argv stdin <> SpawnFailed) ->
        clean_history w st = (Ok tt, after st (clean_history_events stamp))).
Proof.
  split; [|split; [|split]].
  - intros pre argv stdin post Htr Hfr.
    destruct (clean_history_guarded w st) as (ev & Hev & Hg).
    rewrite Hev in Htr. apply app_inv_head in Htr.
    eapply guarded_order; eauto.
  - apply clean_history_no_date.
  - apply clean_history_no_dir.
  - apply clean_history_run.
Qed.

(** The amended C2 on three runs: the bundle command fails, [date] cannot
    be started, the directory cannot be created. *)
Lemma C2_witness :
  (exists dir, In (MakeDirs dir) (firstn 5 (clean_history_events (the_stamp +:+ nl)))
               /\ In (Run (bundle_argv dir) None)
                     (firstn 5 (clean_history_events (the_stamp +:+ nl))))
  /\ (exists e, clean_history no_clock (start no_clock) =
                (Raise e, after (start no_clock)
                            [Write ("Creating backup of current state..." +:+ nl);
                             CheckOutput date_argv]))
  /\ clean_history no_room (start no_room) =
     (Raise OSError, after (start no_room)
                       [Write ("Creating backup of current state..." +:+ nl);
                        CheckOutput date_argv; MakeDirs the_dir])
  /\ clean_history bundle_fails (start bundle_fails)
     = (Ok tt, after (start bundle_fails) (clean_history_events (the_stamp +:+ nl))).
Proof.
  split; [|split; [|split]].
  - apply (proj1 (C2_backup_is_issued_first bundle_fails (start bundle_fails))
             (firstn 5 (clean_history_events (the_stamp +:+ nl)))
             remove_files_argv None
             (skipn 6 (clean_history_events (the_stamp +:+ nl)))).
    + vm_compute. reflexivity.
    + reflexivity.
  - apply (proj1 (proj2 (C2_backup_is_issued_first no_clock (start no_clock)))).
    intros stamp. vm_compute. discriminate.
  - apply (proj1 (proj2 (proj2 (C2_backup_is_issued_first no_room (start no_room))))
             (the_stamp +:+ nl)).
    + reflexivity.
    + reflexivity.
  - apply (proj2 (proj2 (proj2 (C2_backup_is_issued_first bundle_fails (start bundle_fails))))
             (the_stamp +:+ nl)).
    + reflexivity.
    + reflexivity.
    + intros argv stdin. simpl. repeat case_decide; discriminate.
Defined.

(** ** C3: redaction is idempotent *)

(** C3 (counterexample). On a URL nested in another one, the first pass
    leaves a text that the URL-token rule matches across the marker, and the
    second pass replaces it: redacting twice is not redacting once. *)
Lemma C3_redaction_not_idempotent :
  clean_message nested_url = b "http://***REMOVED***/x-AAAAAAAAAAAAAAAAAAAAAAAA"
  /\ clean_message (clean_message nested_url) = b "***REMOVED***"
  /\ clean_message (clean_message nested_url) <> clean_message nested_url.
Proof.
  split; [vm_compute; reflexivity|]. split; [vm_compute; reflexivity|].
  vm_compute. discriminate.
Qed.

(** C3 (amended). The marker alone is left as it is, and redaction is
    idempotent on every content whose redacted form the URL-token rule
    matches nowhere, for messages and for blobs: all the other rules can
    never match again once the content is redacted. *)
Theorem C3_idempotent_unless_url_rematch :
  clean_message marker = marker
  /\ (forall content : bytes,
        occursb p_url_token (clean_message content) = false ->
        clean_message (clean_message content) = clean_message content)
  /\ (forall bl : blob,
        occursb p_url_token (data (clean_blob bl)) = false ->
        clean_blob (clean_blob bl) = clean_blob bl).
Proof.
  assert (Hmsg : forall content : bytes,
            occursb p_url_token (clean_message content) = false ->
            clean_message (clean_message content) = clean_message content).
  { intros content Hurl.
    apply redact_with_fix. intros r Hin.
    destruct (patterns_tame r Hin) as [->|Ht].
    - apply not_occurs_free; [reflexivity | exact Hurl].
    - apply redact_with_free_in; auto. }
  split; [vm_compute; reflexivity|]. split; [exact Hmsg|].
  intros bl Hurl. rewrite !clean_blob_data in *. simpl in *.
  rewrite Hmsg by exact Hurl. reflexivity.
Qed.

(** The amended C3 on a commit id: its redacted form is a fixed point. *)
Lemma C3_witness :
  clean_message (clean_message commit_id) = clean_message commit_id.
Proof.
  apply (proj1 (proj2 C3_idempotent_unless_url_rematch) commit_id).
  vm_compute. reflexivity.
Defined.

(** ** C4: the scan misses no rule *)

(** C4 (counterexample). [git show] prints a commit whose text holds a
    token and then exits with status 128: the token rule matches in the
    text, and [scan_commit] returns the empty set, after the console line
    [Error scanning commit c1]; the scan of the history returns no finding.
    When the output of [git show] does not decode, [scan_commit] raises
    [UnicodeDecodeError] and returns nothing at all. *)
Lemma C4_match_without_finding :
  spawn show_fails_late (show_argv "c1") None
  = Exited 128 (Decoded "token: aaaaaaaaaaaaaaaa")
  /\ In (rule_at 6) sensitive_patterns
  /\ occurs (re (rule_at 6)) (list_ascii_of_string "token: aaaaaaaaaaaaaaaa")
  /\ scan_commit "c1" show_fails_late (start show_fails_late)
     = (Ok ∅, after (start show_fails_late)
                    [CheckOutput (show_argv "c1");
                     Write ("Error scanning commit c1" +:+ nl)])
  /\ fst (scan_history show_fails_late (start show_fails_late)) = Ok []
  /\ fst (scan_commit "c2" one_garbled (start one_garbled)) = Raise UnicodeDecodeError.
Proof.
  split; [reflexivity|].
  split; [unfold rule_at, sensitive_patterns; simpl; tauto|].
  split; [apply occursb_spec; vm_compute; reflexivity|].
  split; [rewrite scan_commit_run; reflexivity|].
  split; [vm_compute; reflexivity|].
  rewrite scan_commit_run. reflexivity.
Qed.

(** C4 (amended). When [git show] exits with status 0 and its output is the
    text of the commit, every rule of the catalog whose pattern matches
    somewhere in that text is reported: [scan_commit] returns a set that
    holds the string [[<commit>] Found pattern: <pattern>] built from the
    pattern text of the rule. That string stands for this rule and no
    other: the string of a rule of the catalog is in the set only if that
    rule matches in the text, and no two rules of the catalog have the same
    pattern text. *)
Theorem C4_scan_reports_every_matching_rule
    (w : world) (st : state) (commit_hash diff : string) (p : rule) :
  spawn w (show_argv commit_hash) None = Exited 0 (Decoded diff) ->
  In p sensitive_patterns ->
  occurs (re p) (list_ascii_of_string diff) ->
  exists found st',
    scan_commit commit_hash w st = (Ok found, st')
    /\ ("[" +:+ commit_hash +:+ "] Found pattern: " +:+ source p) ∈ found
    /\ (forall q, In q sensitive_patterns ->
          ("[" +:+ commit_hash +:+ "] Found pattern: " +:+ source q) ∈ found ->
          occurs (re q) (list_ascii_of_string diff))
    /\ (forall q, In q sensitive_patterns -> source q = source p -> q = p).
Proof.
  intros Hshow Hin Hocc. rewrite scan_commit_run, Hshow. simpl.
  eexists. eexists. split; [reflexivity|]. split; [|split].
  - apply scan_diff_elem. exists p. auto.
  - intros q Hq Hfound. apply scan_diff_elem in Hfound.
    destruct Hfound as (p' & Hp' & Ho & E).
    change (finding commit_hash (source q) = finding commit_hash (source p')) in E.
    apply finding_inj in E.
    rewrite (source_inj_on sensitive_patterns sources_distinct q p' Hq Hp' E). exact Ho.
  - intros q Hq E. apply (source_inj_on sensitive_patterns sources_distinct); auto.
Qed.

(** The amended C4 on the commit [c2] of the two-commit history and the
    token rule. *)
Lemma C4_witness :
  exists found st',
    scan_commit "c2" two_commits (start two_commits) = (Ok found, st')
    /\ ("[" +:+ "c2" +:+ "] Found pattern: " +:+ source (rule_at 6)) ∈ found
    /\ (forall q, In q sensitive_patterns ->
          ("[" +:+ "c2" +:+ "] Found pattern: " +:+ source q) ∈ found ->
          occurs (re q) (list_ascii_of_string "token: aaaaaaaaaaaaaaaa"))
    /\ (forall q, In q sensitive_patterns -> source q = source (rule_at 6) -> q = rule_at 6).
Proof.
  apply (C4_scan_reports_every_matching_rule two_commits (start two_commits)
           "c2" "token: aaaaaaaaaaaaaaaa" (rule_at 6)).
  - reflexivity.
  - unfold rule_at, sensitive_patterns. simpl. tauto.
  - apply occursb_spec. vm_compute. reflexivity.
Defined.

(** ** C5: one finding per match *)

(** C5 (counterexample). A content in which the token rule matches twice
    gives two matches and a single finding. *)
Lemma C5_two_matches_one_finding :
  finditer (re (rule_at 6)) (list_ascii_of_string two_tokens) = [(0, 23); (24, 47)]
  /\ count_matches two_tokens = 2
  /\ size (scan_diff "c1" two_tokens) = 1
  /\ size (scan_diff "c1" two_tokens) <> count_matches two_tokens.
Proof.
  split; [vm_compute; reflexivity|]. split; [vm_compute; reflexivity|].
  split; [vm_compute; reflexivity|]. vm_compute. discriminate.
Qed.

(** C5 (amended). The findings of a content are the findings of the rules
    that match somewhere in it, one per rule however often the rule matches:
    no rule that matches is left out, and the number of findings is the
    number of rules that match. *)
Theorem C5_one_finding_per_matching_rule (commit_hash diff : string) :
  (forall x : string,
     x ∈ scan_diff commit_hash diff <->
     exists p, In p sensitive_patterns
               /\ occurs (re p) (list_ascii_of_string diff)
               /\ x = finding commit_hash (source p))
  /\ size (scan_diff commit_hash diff)
     = length (List.filter (fun p => occursb (re p) (list_ascii_of_string diff))
                           sensitive_patterns).
Proof.
  split; [intros x; apply scan_diff_elem | apply scan_diff_size].
Qed.

(** ** C6: scenario A *)

(** C6 (defect of the code). On the message [api_key: abcdef0123456789] the
    scanner reports one finding, for the API-key pattern, but
    [clean_message] returns the message unchanged: the API-key pattern of
    [clean_repo.py] has no place for the colon and the space. *)
Theorem C6_scenario_a_not_redacted :
  elements (scan_diff "c0ffee" scenario_a) = [finding "c0ffee" (source (rule_at 0))]
  /\ clean_message (b scenario_a) = b scenario_a
  /\ occursb p_api_key (b scenario_a) = false.
Proof.
  split; [vm_compute; reflexivity|]. split; vm_compute; reflexivity.
Qed.

(** ** C7: a commit that cannot be read *)

(** C7 (counterexample). With a single commit that [git show] cannot read,
    [scan_history] returns the empty list: the error is written to the
    console and appears nowhere in the findings, and [main] goes on to say
    that no sensitive data was found. *)
Lemma C7_error_not_in_findings :
  unreadable one_bad_commit "c1"
  /\ fst (scan_history one_bad_commit (start one_bad_commit)) = Ok []
  /\ fst (main one_bad_commit (start one_bad_commit)) = Ok tt
  /\ last (trace (snd (main one_bad_commit (start one_bad_commit))))
     = Some (Write (nl +:+ "No sensitive data found in Git history." +:+ nl)).
Proof.
  split; [exists 128%Z, ""; split; [reflexivity | discriminate]|].
  split; [vm_compute; reflexivity|]. split; vm_compute; reflexivity.
Qed.

(** C7 (amended). Let [git log] list the commits. A commit on which
    [git show] exits with a non-zero status, reached after commits for which
    [git show] gave text, does not stop the walk: [scan_commit] returns the
    empty set for it, after the console line [Error scanning commit ...],
    the progress line follows, and the next event is [git show] on the next
    commit, whatever happens there. When [git show] gives text for every
    listed commit, with whatever exit status, [scan_history] visits every
    commit and returns the findings of the commits that were read; a commit
    on which [git show] failed adds nothing to the findings, and its error
    is a line on the console only. *)
Theorem C7_walk_continues_past_unreadable_commits
    (w : world) (st : state) (out : string) :
  spawn w log_argv None = Exited 0 (Decoded out) ->
  (forall pre c post,
     splitlines out = pre ++ c :: post ->
     (forall c', In c' pre -> shown w c') ->
     unreadable w c ->
     (forall st', scan_commit c w st'
                  = (Ok ∅, after st' [CheckOutput (show_argv c);
                                      Write ("Error scanning commit " +:+ c +:+ nl)]))
     /\ exists tail,
          snd (scan_history w st)
          = after st ([Write ("Scanning Git history for sensitive data..." +:+ nl);
                       CheckOutput log_argv]
                      ++ walk_events w 1 (length (splitlines out)) pre
                      ++ [CheckOutput (show_argv c);
                          Write ("Error scanning commit " +:+ c +:+ nl);
                          progress (S (length pre)) (length (splitlines out))]
                      ++ tail)
          /\ forall next post', post = next :: post' ->
               exists tail', tail = CheckOutput (show_argv next) :: tail')
  /\ ((forall c, In c (splitlines out) -> shown w c) ->
      scan_history w st =
        (Ok (flat_map (report w) (splitlines out)),
         after st (scan_history_events w (splitlines out)))
      /\ (forall c, In c (splitlines out) ->
            In (CheckOutput (show_argv c)) (scan_history_events w (splitlines out)))
      /\ (forall c, In c (splitlines out) -> unreadable w c ->
            report w c = []
            /\ In (Write ("Error scanning commit " +:+ c +:+ nl))
                  (scan_history_events w (splitlines out)))).
Proof.
  intros Hlog. split.
  - intros pre c post Hsplit Hpre Hbad. split.
    + intros st'. apply scan_commit_unreadable. exact Hbad.
    + apply scan_history_passes; auto.
  - intros Hall. split; [apply scan_history_run; auto|]. split.
    + intros c Hin. unfold scan_history_events. simpl. right. right.
      apply in_app_iff. left. apply walk_visits. exact Hin.
    + intros c Hin Hbad. split; [apply unreadable_report; exact Hbad|].
      unfold scan_history_events. simpl. right. right.
      apply in_app_iff. left. apply walk_reports_error; auto.
Qed.

(** The amended C7 on the two-commit history, where [git show] fails on
    the first commit. *)
Lemma C7_witness :
  (exists tail,
     snd (scan_history two_commits (start two_commits))
     = after (start two_commits)
             ([Write ("Scanning Git history for sensitive data..." +:+ nl);
               CheckOutput log_argv]
              ++ [CheckOutput (show_argv "c1");
                  Write ("Error scanning commit " +:+ "c1" +:+ nl);
                  progress 1 2]
              ++ tail)
     /\ exists tail', tail = CheckOutput (show_argv "c2") :: tail')
  /\ scan_history two_commits (start two_commits) =
       (Ok (flat_map (report two_commits) ["c1"; "c2"]),
        after (start two_commits) (scan_history_events two_commits ["c1"; "c2"]))
  /\ report two_commits "c1" = []
  /\ In (Write ("Error scanning commit " +:+ "c1" +:+ nl))
        (scan_history_events two_commits ["c1"; "c2"]).
Proof.
  assert (Hbad : unreadable two_commits "c1")
    by (exists 128%Z, ""; split; [reflexivity | discriminate]).
  assert (Hall : forall c, In c (splitlines ("c1" +:+ nl +:+ "c2" +:+ nl)) ->
                           shown two_commits c).
  { intros c Hin. vm_compute in Hin. destruct Hin as [<-|[<-|[]]].
    - exists 128%Z, "". reflexivity.
    - exists 0%Z, "token: aaaaaaaaaaaaaaaa". reflexivity. }
  destruct (C7_walk_continues_past_unreadable_commits two_commits (start two_commits)
              ("c1" +:+ nl +:+ "c2" +:+ nl) eq_refl) as [Hpass Hwalk].
  destruct (Hpass [] "c1" ["c2"] eq_refl (fun c' (H : In c' []) => match H with end) Hbad)
    as (_ & tail & Ht & Hnext).
  destruct (Hwalk Hall) as (Hrun & _ & Herr).
  split; [exists tail; split; [exact Ht | exact (Hnext "c2" [] eq_refl)]|].
  split; [exact Hrun|].
  exact (Herr "c1" (or_introl eq_refl) Hbad).
Defined.

(** ** C8: the exit status of a scan *)

(** C8 (counterexample). A scan that reports a finding, after which the
    user declines the cleaning, ends with exit status 0. *)
Lemma C8_findings_exit_zero :
  fst (scan_history two_commits (start two_commits))
  = Ok [finding "c2" (source (rule_at 6))]
  /\ exit_code (fst (main two_commits (start two_commits))) = 0%Z.
Proof.
  split; vm_compute; reflexivity.
Qed.

(** C8 (amended). A run in which the user asks for the scan and declines
    the cleaning, [git log] lists the commits and [git show] gives text for
    each of them, ends with exit status 0 whether or not there are findings;
    the status is 1 when an exception escapes, as when [git log] fails. *)
Theorem C8_exit_status_ignores_findings :
  (forall (w : world) (r1 r2 : string) (rest : list string) (out : string),
     typed w = r1 :: r2 :: rest ->
     lower r1 = "yes" -> lower r2 <> "yes" ->
     spawn w log_argv None = Exited 0 (Decoded out) ->
     (forall c, In c (splitlines out) -> shown w c) ->
     exit_code (fst (main w (start w))) = 0%Z)
  /\ (forall (w : world) (r1 : string) (rest : list string) (status : Z) (out : string),
        typed w = r1 :: rest ->
        lower r1 = "yes" ->
        spawn w log_argv None = Exited status (Decoded out) -> status <> 0%Z ->
        exit_code (fst (main w (start w))) = 1%Z).
Proof.
  split.
  - intros w r1 r2 rest out Ht Hy Hn Hlog Hall.
    rewrite (main_scan_only w r1 r2 rest out); auto.
    + apply String.eqb_eq. exact Hy.
    + apply String.eqb_neq. exact Hn.
  - intros w r1 rest status out Ht Hy Hlog Hne.
    rewrite (main_log_failed w r1 rest status out); auto.
    apply String.eqb_eq. exact Hy.
Qed.

(** The amended C8 on a scan with a finding and on a directory that is no
    repository. *)
Lemma C8_witness :
  exit_code (fst (main two_commits (start two_commits))) = 0%Z
  /\ exit_code (fst (main no_repo (start no_repo))) = 1%Z.
Proof.
  split.
  - apply (proj1 C8_exit_status_ignores_findings two_commits "yes" "no" []
             ("c1" +:+ nl +:+ "c2" +:+ nl)).
    + reflexivity.
    + reflexivity.
    + vm_compute. discriminate.
    + reflexivity.
    + intros c Hin. vm_compute in Hin. destruct Hin as [<-|[<-|[]]].
      * exists 128%Z, "". reflexivity.
      * exists 0%Z, "token: aaaaaaaaaaaaaaaa". reflexivity.
  - apply (proj2 C8_exit_status_ignores_findings no_repo "yes" [] 128%Z "").
    + reflexivity.
    + reflexivity.
    + reflexivity.
    + discriminate.
Defined.

(** ** C9: the callbacks keep no state *)

(** C9. After any two sequences of earlier callback invocations, on any
    objects: [clean_message] on equal bytes returns equal bytes, those of
    the function of its argument alone, and leaves the store as it is;
    [clean_blob] on blobs with equal data leaves equal data, and changes
    neither the pattern list nor any other object. *)
Theorem C9_callbacks_keep_no_state
    (before1 before2 : list call) (objs1 objs2 : gmap nat blob) :
  let st1 := run_calls before1 (loaded objs1) in
  let st2 := run_calls before2 (loaded objs2) in
  (forall m1 m2 : bytes, m1 = m2 ->
     fst (run_clean_message m1 st1) = fst (run_clean_message m2 st2)
     /\ fst (run_clean_message m1 st1) = clean_message m1
     /\ snd (run_clean_message m1 st1) = st1)
  /\ (forall (ref1 ref2 : nat) (bl1 bl2 : blob),
        objects st1 !! ref1 = Some bl1 -> objects st2 !! ref2 = Some bl2 ->
        data bl1 = data bl2 ->
        exists out : bytes,
          objects (run_clean_blob ref1 st1) !! ref1 = Some (Blob (blob_id bl1) out)
          /\ objects (run_clean_blob ref2 st2) !! ref2 = Some (Blob (blob_id bl2) out)
          /\ out = clean_message (data bl1))
  /\ (forall ref : nat,
        g_patterns (run_clean_blob ref st1) = patterns
        /\ forall other : nat, other <> ref ->
             objects (run_clean_blob ref st1) !! other = objects st1 !! other).
Proof.
  intros st1 st2.
  assert (H1 : g_patterns st1 = patterns) by apply run_calls_patterns.
  assert (H2 : g_patterns st2 = patterns) by apply run_calls_patterns.
  split; [|split].
  - intros m1 m2 <-. unfold run_clean_message. simpl. rewrite H1, H2. auto.
  - intros ref1 ref2 bl1 bl2 Hl1 Hl2 Hd. exists (clean_message (data bl1)).
    unfold run_clean_blob.
    rewrite (assign_all_self ref1 _ st1 bl1 Hl1), (assign_all_self ref2 _ st2 bl2 Hl2).
    rewrite H1, H2, Hd. auto.
  - intros ref. unfold run_clean_blob. split.
    + rewrite assign_all_patterns. exact H1.
    + intros other Hne. apply assign_all_other. exact Hne.
Qed.

(** C9 on two stores with different histories and a blob holding the
    marker in each. *)
Lemma C9_witness :
  exists out : bytes,
    objects (run_clean_blob 1
               (run_calls [CallMessage commit_id; CallBlob 1]
                          (loaded {[ 1 := Blob 7 (b "token_abc") ]}))) !! 1
    = Some (Blob 7 out)
    /\ objects (run_clean_blob 2 (run_calls [] (loaded {[ 2 := Blob 9 marker ]}))) !! 2
       = Some (Blob 9 out)
    /\ out = clean_message marker.
Proof.
  apply (proj1 (proj2 (C9_callbacks_keep_no_state
                         [CallMessage commit_id; CallBlob 1] []
                         {[ 1 := Blob 7 (b "token_abc") ]} {[ 2 := Blob 9 marker ]}))
               1 2 (Blob 7 marker) (Blob 9 marker)).
  - vm_compute. reflexivity.
  - vm_compute. reflexivity.
  - reflexivity.
Defined.

(** ** C10: long hexadecimal runs are redacted *)

(** C10 (counterexample). Thirty-one [a] followed by the token [eyJa.b.c]
    hold a run of 32 characters of [[a-f0-9]], the thirty-one [a] and the
    [e]. The first pass replaces the token, [e] included, and the thirty-one
    [a] that are left are no match of the second: the result is the
    thirty-one [a] and one marker, not the marker in place of the run. *)
Lemma C10_run_partly_kept :
  run_into_jwt = (thirty_one_a ++ b "e") ++ b "yJa.b.c"
  /\ length (thirty_one_a ++ b "e") = 32
  /\ forallb hex (thirty_one_a ++ b "e") = true
  /\ has_run hex 32 run_into_jwt
  /\ clean_message run_into_jwt = thirty_one_a ++ marker
  /\ clean_message run_into_jwt <> marker ++ b "yJa.b.c"
  /\ forall bl : blob, data bl = run_into_jwt ->
       data (clean_blob bl) = thirty_one_a ++ marker.
Proof.
  split; [reflexivity|]. split; [reflexivity|]. split; [reflexivity|].
  split.
  { exists (thirty_one_a ++ b "e"). split; [exists [], (b "yJa.b.c"); reflexivity|].
    split; [vm_compute; lia|]. repeat constructor. }
  split; [vm_compute; reflexivity|]. split; [vm_compute; discriminate|].
  intros bl E. rewrite clean_blob_data. simpl. rewrite E. vm_compute. reflexivity.
Qed.

(** C10 (amended). Whatever the content, a run of 32 or more characters of
    [[a-f0-9]] does not survive [clean_message] or [clean_blob]: the result
    holds the marker, holds no such run, and differs from the content. The
    run is replaced by exactly the marker when it is the whole content or
    stands between two white-space bytes; elsewhere an earlier rule may take
    some of its characters. A 40-character commit id, which is no
    credential, becomes the marker, alone or inside a line of text. *)
Theorem C10_hex_runs_are_redacted :
  (forall content : bytes,
     has_run hex 32 content ->
     infix marker (clean_message content)
     /\ ~ has_run hex 32 (clean_message content)
     /\ clean_message content <> content
     /\ forall bl : blob, data bl = content ->
          data (clean_blob bl) = clean_message content
          /\ data (clean_blob bl) <> data bl)
  /\ (forall run : bytes,
        32 <= length run -> Forall (fun c => hex c = true) run ->
        clean_message run = marker
        /\ forall (u v : bytes) (c1 c2 : ascii),
             space c1 = true -> space c2 = true ->
             clean_message (u ++ c1 :: run ++ c2 :: v)
             = clean_message u ++ c1 :: marker ++ c2 :: clean_message v)
  /\ clean_message commit_id = marker
  /\ clean_message (b "commit " ++ commit_id ++ b " fixed")
     = b "commit " ++ marker ++ b " fixed".
Proof.
  split; [|split; [|split; vm_compute; reflexivity]].
  - intros content Hrun.
    assert (Hno : ~ has_run hex 32 (clean_message content)).
    { intros H. exact (run_not_free _ H (clean_message_free_hex content)). }
    assert (Hne : clean_message content <> content).
    { intros E. rewrite E in Hno. auto. }
    split; [apply clean_message_marked; auto|]. split; [exact Hno|]. split; [exact Hne|].
    intros bl <-. rewrite clean_blob_data. simpl. auto.
  - intros run Hlen Hall.
    assert (Hrun : clean_message run = marker) by (apply clean_message_hex_run; auto).
    split; [exact Hrun|].
    intros u v c1 c2 H1 H2.
    rewrite clean_message_cut by exact H1.
    rewrite clean_message_cut by exact H2.
    rewrite Hrun. reflexivity.
Qed.

(** The amended C10 on a commit id. *)
Lemma C10_witness :
  (infix marker (clean_message commit_id)
   /\ ~ has_run hex 32 (clean_message commit_id)
   /\ clean_message commit_id <> commit_id
   /\ forall bl : blob, data bl = commit_id ->
        data (clean_blob bl) = clean_message commit_id
        /\ data (clean_blob bl) <> data bl)
  /\ clean_message (b "commit " ++ commit_id ++ b " fixed")
     = clean_message (b "commit") ++ " "%char :: marker ++ " "%char :: clean_message (b "fixed").
Proof.
  assert (Hall : Forall (fun c => hex c = true) commit_id)
    by (unfold commit_id; simpl; repeat constructor).
  split.
  - apply (proj1 C10_hex_runs_are_redacted commit_id).
    exists commit_id. split; [exists [], []; reflexivity|].
    split; [vm_compute; lia | exact Hall].
  - apply (proj2 (proj1 (proj2 C10_hex_runs_are_redacted) commit_id
                    ltac:(vm_compute; lia) Hall)
             (b "commit") (b "fixed") " "%char " "%char); reflexivity.
Defined.


(* ================================================================== *)
(** * Further properties of the two scripts *)
(* ================================================================== *)

Import Shapes Conduct.
Import ReFacts SubFacts EditFacts PassFacts MarkerFacts RedactionFacts CallbackFacts
       ProcFacts ScanFacts HistoryFacts RunFacts CleanFacts MainFacts.
Import CutFacts WordFacts ConfinedFacts WalkMore ConsentFacts ConsentMore EnvRuleFacts.

(** ** [clean_repo.py] *)

(** X1. Whatever the content, after [clean_message] or [clean_blob] none of
    the nine rules other than the URL-token rule matches anywhere in the
    result. *)
Theorem X1_redaction_removes_every_settled_match :
  (forall content : bytes,
     Forall (fun r => occursb r (clean_message content) = false) settled_rules)
  /\ (forall bl : blob,
        Forall (fun r => occursb r (data (clean_blob bl)) = false) settled_rules).
Proof.
  assert (H : forall content : bytes,
            Forall (fun r => occursb r (clean_message content) = false) settled_rules).
  { intros content. unfold settled_rules.
    repeat (constructor;
            [apply free_not_occurs, redact_with_free_in;
             [vm_compute; reflexivity | unfold patterns; simpl; tauto]|]).
    constructor. }
  split; [exact H|]. intros bl. rewrite clean_blob_data. simpl. apply H.
Qed.

(** X2. A content in which no rule matches is returned byte for byte, also
    when it is no text; a blob holding it is left as it is. *)
Theorem X2_unmatched_content_is_unchanged (content : bytes) :
  forallb (fun r => negb (occursb r content)) patterns = true ->
  clean_message content = content
  /\ forall bl : blob, data bl = content -> clean_blob bl = bl.
Proof.
  intros Hno.
  assert (Hm : clean_message content = content).
  { apply redact_with_fix. intros r Hin.
    rewrite forallb_forall in Hno. specialize (Hno r Hin).
    apply negb_true_iff in Hno. apply not_occurs_free; auto.
    destruct (patterns_tame r Hin) as [->|Ht]; [reflexivity|].
    apply tame_parts in Ht. tauto. }
  split; [exact Hm|]. intros bl <-. rewrite clean_blob_data, Hm.
  destruct bl; reflexivity.
Qed.

(** X2 on seven bytes that are no text. *)
Lemma X2_witness :
  clean_message binary_blob = binary_blob
  /\ forall bl : blob, data bl = binary_blob -> clean_blob bl = bl.
Proof.
  apply (X2_unmatched_content_is_unchanged binary_blob). vm_compute. reflexivity.
Defined.

(** X3. No match of any rule contains a white-space byte, so redaction
    goes word by word: the white space stays where it is and what stands
    before and after it is redacted on its own. *)
Theorem X3_redaction_is_word_by_word (u v : bytes) (c : ascii) :
  space c = true ->
  clean_message (u ++ c :: v) = clean_message u ++ c :: clean_message v
  /\ forall i : nat,
       data (clean_blob (Blob i (u ++ c :: v)))
       = data (clean_blob (Blob i u)) ++ c :: data (clean_blob (Blob i v)).
Proof.
  intros Hc. split; [apply clean_message_cut; exact Hc|].
  intros i. rewrite !clean_blob_data. simpl. apply clean_message_cut. exact Hc.
Qed.

(** X3 on two words. *)
Lemma X3_witness :
  clean_message (b "token_abc" ++ " "%char :: b "hello")
  = clean_message (b "token_abc") ++ " "%char :: clean_message (b "hello").
Proof.
  apply (proj1 (X3_redaction_is_word_by_word (b "token_abc") (b "hello") " "%char eq_refl)).
Defined.

(** X4. A key followed by a separator and a space is never redacted with
    its value: whatever the value, the key and the separator are kept and
    the value is redacted on its own. *)
Theorem X4_spaced_assignment_keeps_its_key (value : bytes) :
  Forall (fun key => clean_message (b key ++ value) = b key ++ clean_message value)
         ["api_key: "; "api_key = "; "secret_key: "; "password: "; "token: "].
Proof.
  assert (H1 : forall w : bytes,
            clean_message w = w ->
            forall v, clean_message (w ++ " "%char :: v) = w ++ " "%char :: clean_message v).
  { intros w Hw v. rewrite clean_message_cut by reflexivity. rewrite Hw. reflexivity. }
  repeat constructor.
  - apply (H1 (b "api_key:")). vm_compute. reflexivity.
  - change (b "api_key = " ++ value)
      with (b "api_key" ++ " "%char :: (b "=" ++ " "%char :: value)).
    rewrite (H1 (b "api_key")) by (vm_compute; reflexivity).
    rewrite (H1 (b "=")) by (vm_compute; reflexivity). reflexivity.
  - apply (H1 (b "secret_key:")). vm_compute. reflexivity.
  - apply (H1 (b "password:")). vm_compute. reflexivity.
  - apply (H1 (b "token:")). vm_compute. reflexivity.
Qed.

(** X5. After any earlier invocations, [clean_blob] on two different blobs
    gives the same store in either order. *)
Theorem X5_blob_callbacks_commute
    (before : list call) (objs : gmap nat blob) (ref1 ref2 : nat) :
  ref1 <> ref2 ->
  let st := run_calls before (loaded objs) in
  run_clean_blob ref1 (run_clean_blob ref2 st)
  = run_clean_blob ref2 (run_clean_blob ref1 st).
Proof.
  intros Hne st.
  assert (Hp : g_patterns st = patterns) by apply run_calls_patterns.
  rewrite (run_clean_blob_store ref2 st Hp), (run_clean_blob_store ref1 st Hp).
  rewrite !run_clean_blob_store by reflexivity. simpl. f_equal.
  apply alter_alter_ne. exact Hne.
Qed.

(** X5 on two blobs. *)
Lemma X5_witness :
  let st := run_calls [CallMessage commit_id]
                      (loaded {[ 1 := Blob 7 commit_id; 2 := Blob 9 nested_url ]}) in
  run_clean_blob 1 (run_clean_blob 2 st) = run_clean_blob 2 (run_clean_blob 1 st).
Proof.
  apply (X5_blob_callbacks_commute [CallMessage commit_id]
           {[ 1 := Blob 7 commit_id; 2 := Blob 9 nested_url ]} 1 2).
  lia.
Defined.

(** X6. After any sequence of callback invocations the pattern list is the
    one of the module, and every blob holds its data redacted once per
    invocation of [clean_blob] on it, its other fields untouched; blobs that
    were not passed are as they were. *)
Theorem X6_each_call_redacts_its_blob_once
    (cs : list call) (objs : gmap nat blob) (ref : nat) :
  g_patterns (run_calls cs (loaded objs)) = patterns
  /\ objects (run_calls cs (loaded objs)) !! ref
     = Nat.iter (blob_calls ref cs) clean_blob <$> objs !! ref.
Proof.
  split; [apply run_calls_patterns|].
  apply (run_calls_objects ref cs (loaded objs)). reflexivity.
Qed.

(** ** [clean_git_history.py]: the scan *)

(** X7. [scan_commit] never lets a [CalledProcessError] out, and absorbs
    nothing else: when [git show] cannot be started or its output does not
    decode, the exception leaves [scan_commit] and nothing is printed. *)
Theorem X7_scan_commit_absorbs_only_the_exit_status
    (w : world) (st : state) (c : string) :
  fst (scan_commit c w st) <> Raise CalledProcessError
  /\ (garbled w c ->
      exists e, scan_commit c w st = (Raise e, after st [CheckOutput (show_argv c)])
                /\ e <> CalledProcessError).
Proof.
  split; [|apply scan_commit_garbled].
  rewrite scan_commit_run.
  destruct (spawn w (show_argv c) None) as [status [diff|]|]; simpl; try discriminate.
  destruct (status =? 0)%Z; discriminate.
Qed.

(** X7 on the commit whose output does not decode. *)
Lemma X7_witness :
  exists e, scan_commit "c2" one_garbled (start one_garbled)
            = (Raise e, after (start one_garbled) [CheckOutput (show_argv "c2")])
            /\ e <> CalledProcessError.
Proof.
  apply (proj2 (X7_scan_commit_absorbs_only_the_exit_status
                  one_garbled (start one_garbled) "c2")).
  right. exists 0%Z. reflexivity.
Defined.

(** X8. The walk stops at the first commit for which [git show] cannot be
    started or gives output that does not decode: [scan_history] raises, the
    findings of the commits before it are lost, and no later commit is
    shown. *)
Theorem X8_scan_stops_at_a_garbled_commit
    (w : world) (st : state) (out : string) (pre : list string) (c : string)
    (post : list string) :
  spawn w log_argv None = Exited 0 (Decoded out) ->
  splitlines out = pre ++ c :: post ->
  (forall c', In c' pre -> shown w c') ->
  garbled w c ->
  exists e ev,
    scan_history w st = (Raise e, after st ev)
    /\ e <> CalledProcessError
    /\ commands ev = log_argv :: map show_argv (pre ++ [c]).
Proof.
  intros Hlog Hsplit Hpre Hbad.
  destruct (scan_history_aborts w st out pre c post Hlog Hsplit Hpre Hbad)
    as (e & Hrun & Hne).
  exists e. eexists. split; [exact Hrun|]. split; [exact Hne|].
  simpl. rewrite commands_app, commands_walk, map_app. reflexivity.
Qed.

(** X8 on a history of three commits, the second garbled. *)
Lemma X8_witness :
  exists e ev,
    scan_history one_garbled (start one_garbled) = (Raise e, after (start one_garbled) ev)
    /\ e <> CalledProcessError
    /\ commands ev = log_argv :: map show_argv (["c1"] ++ ["c2"]).
Proof.
  apply (X8_scan_stops_at_a_garbled_commit one_garbled (start one_garbled)
           ("c1" +:+ nl +:+ "c2" +:+ nl +:+ "c3" +:+ nl) ["c1"] "c2" ["c3"]).
  - reflexivity.
  - vm_compute. reflexivity.
  - intros c' Hin. simpl in Hin. destruct Hin as [<-|[]].
    exists 0%Z, "token: aaaaaaaaaaaaaaaa". reflexivity.
  - right. exists 0%Z. reflexivity.
Defined.

(** X9. Whatever the world does, [scan_history] only writes to the console
    and calls [check_output] on [git log] and [git show]: it runs no other
    command, creates no directory and reads no input. *)
Theorem X9_scan_is_read_only (w : world) (st : state) :
  exists ev,
    snd (scan_history w st) = after st ev
    /\ forallb reads_only ev = true
    /\ Forall (fun e => mutates e = false) ev.
Proof.
  destruct (scan_history_confined w st) as (ev & Hs & Hall).
  exists ev. split; [exact Hs|]. split; [exact Hall|].
  apply Forall_forall. intros e Hin. apply list_elem_of_In in Hin.
  eapply reads_only_harmless; eauto.
Qed.

(** X10. When [git log] lists the commits and [git show] gives text for
    each, the commands of the scan are [git log] once and then [git show]
    once per commit, in the order of the log. *)
Theorem X10_each_commit_is_shown_once_in_log_order
    (w : world) (st : state) (out : string) :
  spawn w log_argv None = Exited 0 (Decoded out) ->
  (forall c, In c (splitlines out) -> shown w c) ->
  exists ev,
    snd (scan_history w st) = after st ev
    /\ commands ev = log_argv :: map show_argv (splitlines out).
Proof.
  intros Hlog Hall. rewrite (scan_history_run w st out Hlog Hall).
  eexists. split; [reflexivity|]. apply commands_scan.
Qed.

Lemma shown_two_commits c :
  In c (splitlines ("c1" +:+ nl +:+ "c2" +:+ nl)) -> shown two_commits c.
Proof.
  intros Hin. vm_compute in Hin. destruct Hin as [<-|[<-|[]]].
  - exists 128%Z, "". reflexivity.
  - exists 0%Z, "token: aaaaaaaaaaaaaaaa". reflexivity.
Qed.

(** X10 on the two-commit history. *)
Lemma X10_witness :
  exists ev,
    snd (scan_history two_commits (start two_commits)) = after (start two_commits) ev
    /\ commands ev = log_argv :: map show_argv (splitlines ("c1" +:+ nl +:+ "c2" +:+ nl)).
Proof.
  apply (X10_each_commit_is_shown_once_in_log_order two_commits (start two_commits)
           ("c1" +:+ nl +:+ "c2" +:+ nl)).
  - reflexivity.
  - exact shown_two_commits.
Defined.

(** X11. When [git log] lists the commits and [git show] gives text for
    each, the list [scan_history] returns holds exactly the findings
    [(commit, pattern)] for which [git show] succeeded on the commit and
    the pattern matches somewhere in what it printed. *)
Theorem X11_findings_are_exactly_the_matching_rules
    (w : world) (st : state) (out : string) :
  spawn w log_argv None = Exited 0 (Decoded out) ->
  (forall c, In c (splitlines out) -> shown w c) ->
  exists findings st',
    scan_history w st = (Ok findings, st')
    /\ forall x : string,
         In x findings <->
         exists c diff p,
           In c (splitlines out)
           /\ spawn w (show_argv c) None = Exited 0 (Decoded diff)
           /\ In p sensitive_patterns
           /\ occurs (re p) (list_ascii_of_string diff)
           /\ x = finding c (source p).
Proof.
  intros Hlog Hall. rewrite (scan_history_run w st out Hlog Hall).
  eexists. eexists. split; [reflexivity|]. intros x.
  rewrite in_flat_map. split.
  - intros (c & Hc & Hx). apply report_elem in Hx.
    destruct Hx as (diff & p & H). exists c, diff, p. tauto.
  - intros (c & diff & p & Hc & H). exists c. split; [exact Hc|].
    apply report_elem. exists diff, p. exact H.
Qed.

(** X11 on the two-commit history. *)
Lemma X11_witness :
  exists findings st',
    scan_history two_commits (start two_commits) = (Ok findings, st')
    /\ forall x : string,
         In x findings <->
         exists c diff p,
           In c (splitlines ("c1" +:+ nl +:+ "c2" +:+ nl))
           /\ spawn two_commits (show_argv c) None = Exited 0 (Decoded diff)
           /\ In p sensitive_patterns
           /\ occurs (re p) (list_ascii_of_string diff)
           /\ x = finding c (source p).
Proof.
  apply (X11_findings_are_exactly_the_matching_rules two_commits (start two_commits)
           ("c1" +:+ nl +:+ "c2" +:+ nl)).
  - reflexivity.
  - exact shown_two_commits.
Defined.

(** X12. Every line [NAME=value] of what [git show] prints, with a name of
    word characters and a value that is not empty, is reported by the last
    rule of the catalog: the scan flags any assignment, secret or not. *)
Theorem X12_assignment_lines_are_reported
    (commit_hash diff : string) (pre name value tail : bytes) :
  list_ascii_of_string diff = pre ++ name ++ "="%char :: value ++ tail ->
  (pre = [] \/ exists pre', pre = pre' ++ [newline]) ->
  (tail = [] \/ exists t, tail = newline :: t) ->
  name <> [] -> Forall (fun c => uword c = true) name ->
  value <> [] -> Forall (fun c => c <> newline) value ->
  finding commit_hash "(?m)^\s*(?:export\s+)?[\w_]+=.+$" ∈ scan_diff commit_hash diff.
Proof.
  intros Hd Hpre Htail Hn Hname Hv Hvalue.
  apply scan_diff_elem. exists (rule_at 13).
  split; [unfold rule_at, sensitive_patterns; simpl; tauto|].
  split; [|reflexivity].
  rewrite Hd. apply env_rule_occurs; auto.
  eapply Forall_impl; [exact Hvalue|]. intros c Hc. simpl in Hc.
  unfold dot, nope, lit. apply negb_true_iff.
  apply Ascii.eqb_neq. exact Hc.
Qed.

(** X12 on a one-line diff. *)
Lemma X12_witness :
  finding "c1" "(?m)^\s*(?:export\s+)?[\w_]+=.+$" ∈ scan_diff "c1" "x=1".
Proof.
  apply (X12_assignment_lines_are_reported "c1" "x=1" [] (b "x") (b "1") []).
  - reflexivity.
  - left. reflexivity.
  - left. reflexivity.
  - discriminate.
  - repeat constructor.
  - discriminate.
  - repeat constructor. discriminate.
Defined.

(** X13. A content gives no finding exactly when no rule of the catalog
    matches anywhere in it. *)
Theorem X13_no_finding_iff_no_rule_matches (commit_hash diff : string) :
  scan_diff commit_hash diff = ∅ <->
  forall p, In p sensitive_patterns -> ~ occurs (re p) (list_ascii_of_string diff).
Proof.
  split.
  - intros He p Hp Ho.
    assert (Hx : finding commit_hash (source p) ∈ scan_diff commit_hash diff).
    { apply scan_diff_elem. exists p. auto. }
    rewrite He in Hx. apply not_elem_of_empty in Hx. exact Hx.
  - intros Hno. apply set_eq. intros x. split.
    + intros Hx. apply scan_diff_elem in Hx. destruct Hx as (p & Hp & Ho & _).
      destruct (Hno p Hp Ho).
    + intros Hx. apply not_elem_of_empty in Hx. destruct Hx.
Qed.

(** ** [clean_git_history.py]: [main] and [clean_history] *)

(** X14. Unless the first answer is [yes] in some letter case, [main] runs
    no command at all: any other answer ends it with [Operation cancelled.],
    and without input it ends with [EOFError] after the question. *)
Theorem X14_without_yes_nothing_is_run (w : world) :
  (forall r rest,
     typed w = r :: rest -> lower r <> "yes" ->
     main w (start w) =
     (Ok tt, State (banner ++ [ask_proceed; Write ("Operation cancelled." +:+ nl)]) rest))
  /\ (typed w = [] ->
      main w (start w) = (Raise EOFError, State (banner ++ [ask_proceed]) [])).
Proof.
  split; [intros r rest; apply main_declined | apply main_no_input].
Qed.

(** X14 on the answer [y] and on no answer. *)
Lemma X14_witness :
  main (scripted [] ["y"]) (start (scripted [] ["y"]))
  = (Ok tt, State (banner ++ [ask_proceed; Write ("Operation cancelled." +:+ nl)]) [])
  /\ main (scripted [] []) (start (scripted [] []))
     = (Raise EOFError, State (banner ++ [ask_proceed]) []).
Proof.
  split.
  - apply (proj1 (X14_without_yes_nothing_is_run (scripted [] ["y"])) "y" []).
    + reflexivity.
    + vm_compute. discriminate.
  - apply (proj2 (X14_without_yes_nothing_is_run (scripted [] []))). reflexivity.
Defined.

(** X15. Whatever the world does, [main] runs a command with
    [subprocess.run] or creates a directory only if the first two answers
    are both [yes] in some letter case and the scan returned at least one
    finding. *)
Theorem X15_rewrite_needs_findings_and_two_yes (w : world) (e : event) :
  In e (trace (snd (main w (start w)))) -> mutates e = true ->
  exists r1 r2 rest f fs st',
    typed w = r1 :: r2 :: rest /\ lower r1 = "yes" /\ lower r2 = "yes"
    /\ scan_history w (State (banner ++ [ask_proceed]) (r2 :: rest)) = (Ok (f :: fs), st').
Proof. apply main_mutation_needs_consent. Qed.

(** X15 on a run that rewrites. *)
Lemma X15_witness :
  exists r1 r2 rest f fs st',
    typed rewrites_fail = r1 :: r2 :: rest /\ lower r1 = "yes" /\ lower r2 = "yes"
    /\ scan_history rewrites_fail (State (banner ++ [ask_proceed]) (r2 :: rest))
       = (Ok (f :: fs), st').
Proof.
  apply (X15_rewrite_needs_findings_and_two_yes rewrites_fail (Run remove_files_argv None)).
  - vm_compute. do 21 right. left. reflexivity.
  - reflexivity.
Defined.

(** X16. When both answers are [yes], the scan has findings and the
    commands can be started, [main] runs every step of [clean_history] and
    then announces [Repository cleaned!], whatever exit status [git bundle]
    and [git filter-repo] return. *)
Theorem X16_success_is_announced_whatever_the_exit_status
    (w : world) (r1 r2 : string) (rest : list string) (out stamp : string) :
  typed w = r1 :: r2 :: rest ->
  lower r1 = "yes" -> lower r2 = "yes" ->
  spawn w log_argv None = Exited 0 (Decoded out) ->
  (forall c, In c (splitlines out) -> shown w c) ->
  flat_map (report w) (splitlines out) <> [] ->
  spawn w date_argv None = Exited 0 (Decoded stamp) ->
  makedirs_ok w ("git_backup_" +:+ strip stamp) = true ->
  (forall argv stdin, spawn w argv stdin <> SpawnFailed) ->
  main w (start w) =
  (Ok tt,
   State (banner ++ [ask_proceed]
          ++ scan_history_events w (splitlines out)
          ++ findings_lines (flat_map (report w) (splitlines out))
          ++ [ask_clean]
          ++ clean_history_events stamp
          ++ success_lines)
         rest).
Proof. apply main_cleans. Qed.

(** X16 on a run where every [git bundle] and [git filter-repo] fails. *)
Lemma X16_witness :
  spawn rewrites_fail remove_files_argv None = Exited 1 (Decoded "")
  /\ main rewrites_fail (start rewrites_fail) =
     (Ok tt,
      State (banner ++ [ask_proceed]
             ++ scan_history_events rewrites_fail (splitlines ("c2" +:+ nl))
             ++ findings_lines (flat_map (report rewrites_fail) (splitlines ("c2" +:+ nl)))
             ++ [ask_clean]
             ++ clean_history_events (the_stamp +:+ nl)
             ++ success_lines)
            []).
Proof.
  split; [reflexivity|].
  apply (X16_success_is_announced_whatever_the_exit_status rewrites_fail
           "yes" "YES" [] ("c2" +:+ nl) (the_stamp +:+ nl)).
  - reflexivity.
  - reflexivity.
  - reflexivity.
  - reflexivity.
  - intros c Hin. vm_compute in Hin. destruct Hin as [<-|[]].
    exists 0%Z, "token: aaaaaaaaaaaaaaaa". reflexivity.
  - vm_compute. discriminate.
  - reflexivity.
  - reflexivity.
  - intros argv stdin. simpl. repeat case_bool_decide; discriminate.
Defined.

(** X17. When [git] cannot be started, [clean_history] stops with
    [OSError] at the bundle command: the backup directory has been created
    and no [git filter-repo] is run. *)
Theorem X17_no_git_stops_before_any_rewrite (w : world) (st : state) (stamp : string) :
  spawn w date_argv None = Exited 0 (Decoded stamp) ->
  makedirs_ok w ("git_backup_" +:+ strip stamp) = true ->
  spawn w (bundle_argv ("git_backup_" +:+ strip stamp)) None = SpawnFailed ->
  clean_history w st =
  (Raise OSError, after st [Write ("Creating backup of current state..." +:+ nl);
                            CheckOutput date_argv;
                            MakeDirs ("git_backup_" +:+ strip stamp);
                            Run (bundle_argv ("git_backup_" +:+ strip stamp)) None]).
Proof. apply clean_history_no_git. Qed.

(** X17 on a machine without [git]. *)
Lemma X17_witness :
  clean_history no_git (start no_git) =
  (Raise OSError, after (start no_git)
                    [Write ("Creating backup of current state..." +:+ nl);
                     CheckOutput date_argv; MakeDirs the_dir;
                     Run (bundle_argv the_dir) None]).
Proof.
  apply (X17_no_git_stops_before_any_rewrite no_git (start no_git) (the_stamp +:+ nl)).
  - reflexivity.
  - reflexivity.
  - reflexivity.
Defined.
